(** * Prosody: tone detection and speech shaping (backend/prosody.py)

    A shallow embedding of [detect_tone], [_split_sentences],
    [_soften_existing_name] and [format_for_tts], and the properties the
    specification states about them.

    A Python [str] is a sequence of Unicode code points: it is modelled as a
    list of code points ([N]), so that [len], [in], [endswith], the regular
    expressions and [strip] count and compare what Python counts and
    compares.  String constants are written as in the source and decoded
    from their UTF-8 bytes by [u]. *)

From Stdlib Require Import List NArith Arith Bool Ascii String Lia.
Import ListNotations.

Open Scope N_scope.
Open Scope list_scope.

(** ** Strings *)

Definition str := list N.

(** Decoder of the UTF-8 bytes of a string literal of this file. *)
Fixpoint utf8_decode (bs : list N) : str :=
  match bs with
  | [] => []
  | b0 :: r0 =>
    if b0 <? 128 then b0 :: utf8_decode r0
    else if b0 <? 224 then
      match r0 with
      | b1 :: r1 => ((b0 - 192) * 64 + (b1 - 128)) :: utf8_decode r1
      | _ => []
      end
    else if b0 <? 240 then
      match r0 with
      | b1 :: b2 :: r2 =>
        ((b0 - 224) * 4096 + (b1 - 128) * 64 + (b2 - 128)) :: utf8_decode r2
      | _ => []
      end
    else
      match r0 with
      | b1 :: b2 :: b3 :: r3 =>
        ((b0 - 240) * 262144 + (b1 - 128) * 4096 + (b2 - 128) * 64 + (b3 - 128))
          :: utf8_decode r3
      | _ => []
      end
  end.

Definition u (s : string) : str :=
  utf8_decode (map N_of_ascii (list_ascii_of_string s)).

(** [a == b] *)
Fixpoint str_eqb (a b : str) : bool :=
  match a, b with
  | [], [] => true
  | x :: a', y :: b' => (x =? y) && str_eqb a' b'
  | _, _ => false
  end.

(** [not s] for a string: true of the empty string only. *)
Definition is_empty (s : str) : bool :=
  match s with [] => true | _ => false end.

(** [s.startswith(p)] *)
Fixpoint startswith (p s : str) : bool :=
  match p, s with
  | [], _ => true
  | _ :: _, [] => false
  | a :: p', b :: s' => (a =? b) && startswith p' s'
  end.

(** [s.endswith(p)] *)
Definition endswith (p s : str) : bool := startswith (rev p) (rev s).

(** [k in t]: [k] occurs in [t] as a contiguous substring. *)
Fixpoint contains (k t : str) : bool :=
  startswith k t ||
  match t with
  | [] => false
  | _ :: t' => contains k t'
  end.

(** [sep.join(l)] *)
Fixpoint join (sep : str) (l : list str) : str :=
  match l with
  | [] => []
  | [x] => x
  | x :: r => x ++ sep ++ join sep r
  end.

(** Python's whitespace ([str.isspace], what [strip] removes and what the
    regular expression class [\s] matches on a [str]). *)
Definition isspace (c : N) : bool :=
  ((9 <=? c) && (c <=? 13)) || ((28 <=? c) && (c <=? 32))
  || (c =? 133) || (c =? 160) || (c =? 5760)
  || ((8192 <=? c) && (c <=? 8202))
  || (c =? 8232) || (c =? 8233) || (c =? 8239) || (c =? 8287) || (c =? 12288).

Fixpoint lstrip (s : str) : str :=
  match s with
  | [] => []
  | c :: r => if isspace c then lstrip r else s
  end.

Definition rstrip (s : str) : str := rev (lstrip (rev s)).

(** [s.strip()] *)
Definition strip (s : str) : str := rstrip (lstrip s).

(** [s.replace(old, new)] for a non-empty [old]: the occurrences of [old]
    are found from the left and do not overlap.  [skip] counts the
    characters of a found occurrence that are still to be passed over. *)
Fixpoint replace_from (old new : str) (skip : nat) (s : str) : str :=
  match s with
  | [] => []
  | c :: r =>
    match skip with
    | S k => replace_from old new k r
    | O =>
      if startswith old s
      then new ++ replace_from old new (Nat.pred (List.length old)) r
      else c :: replace_from old new O r
    end
  end.

Definition replace (old new s : str) : str := replace_from old new O s.

(** ** Lowercasing

    [str.lower] maps each code point to its lowercase form.  For ASCII this
    is the shift of [A-Z].  The General Punctuation block (U+2000 to
    U+206F), where the curly apostrophe and the ellipsis of the source
    live, has no cased character.  The case tables of the Unicode database
    for the other code points (which may give several code points, and look
    at the neighbours for the final sigma) are not part of the repository
    and are a parameter of the model. *)

Definition ascii_lower (c : N) : N :=
  if (65 <=? c) && (c <=? 90) then c + 32 else c.

Section Lower.

(** [unicode_lower before c after]: the lowercase form of [c] where [before]
    holds the code points that precede it, the nearest first, and [after]
    those that follow. *)
Variable unicode_lower : str -> N -> str -> str.

Definition lower_char (before : str) (c : N) (after : str) : str :=
  if c <? 128 then [ascii_lower c]
  else if (8192 <=? c) && (c <=? 8303) then [c]
  else unicode_lower before c after.

Fixpoint lower_from (before s : str) : str :=
  match s with
  | [] => []
  | c :: r => lower_char before c r ++ lower_from (c :: before) r
  end.

(** [s.lower()] *)
Definition lower (s : str) : str := lower_from [] s.

End Lower.

(** The case table that leaves every code point alone; used to run the
    model on inputs that have no cased non-ASCII code point. *)
Definition no_unicode_case (before : str) (c : N) (after : str) : str := [c].

(** ** Tones *)

Definition TONE_EXCITED : str := Eval vm_compute in u "excited".
Definition TONE_NEUTRAL : str := Eval vm_compute in u "neutral".
Definition TONE_HAPPY : str := Eval vm_compute in u "happy".
Definition TONE_SYMPATHETIC : str := Eval vm_compute in u "sympathetic".
Definition TONE_BUMMED : str := Eval vm_compute in u "bummed".
Definition TONE_REASSURING : str := Eval vm_compute in u "reassuring".
Definition TONE_ENCOURAGING : str := Eval vm_compute in u "encouraging".
Definition TONE_PLAYFUL : str := Eval vm_compute in u "playful".
Definition TONE_INTRIGUED : str := Eval vm_compute in u "intrigued".
Definition TONE_CAUTION : str := Eval vm_compute in u "caution".

(** The keyword lists of [detect_tone], in the order of the source. *)

Definition sad_keywords : list str := Eval vm_compute in map u
  [ "i'm sorry"; "i am sorry"; "that sounds really hard";
    "that sounds tough"; "i know this is hard";
    "i know this is tough"; "i can see why"; "i understand this is";
    "it makes sense you feel"; "i get why you feel" ]%string.

Definition bummed_keywords : list str := Eval vm_compute in map u
  [ "that really sucks"; "that sucks"; "that's rough"; "that’s rough";
    "that’s not fair"; "that is not fair" ]%string.

Definition reassuring_keywords : list str := Eval vm_compute in map u
  [ "don't worry"; "do not worry";
    "you're not alone"; "you are not alone";
    "it's okay to"; "it’s okay to";
    "it's ok to"; "it’s ok to";
    "it's understandable"; "it’s understandable";
    "you're doing your best"; "you are doing your best" ]%string.

Definition encouraging_keywords : list str := Eval vm_compute in map u
  [ "you've got this"; "you got this";
    "i believe in you"; "i’m proud of you"; "i am proud of you";
    "keep going"; "keep at it";
    "this is a great step"; "this is a good step";
    "you’re doing great"; "you're doing great" ]%string.

Definition happy_keywords : list str := Eval vm_compute in map u
  [ "that's great"; "that’s great";
    "that's awesome"; "that’s awesome";
    "that's fantastic"; "that’s fantastic";
    "i'm glad"; "i am glad";
    "i'm happy for you"; "i am happy for you";
    "congratulations"; "congrats" ]%string.

Definition playful_keywords : list str := Eval vm_compute in map u
  [ "haha"; "lol"; "just kidding";
    "couldn’t resist"; "couldn't resist";
    "little bit cheeky"; "let's have some fun"; "let’s have some fun" ]%string.

Definition intrigued_keywords : list str := Eval vm_compute in map u
  [ "i'm curious"; "i am curious";
    "interesting question"; "that's interesting"; "that’s interesting";
    "let's unpack"; "let’s unpack";
    "i wonder"; "makes me wonder" ]%string.

Definition caution_keywords : list str := Eval vm_compute in map u
  [ "be careful"; "you’ll want to be careful"; "you will want to be careful";
    "this might be risky"; "this could be risky";
    "i’d strongly recommend"; "i would strongly recommend";
    "i’d avoid"; "i would avoid";
    "it’s important to"; "it's important to" ]%string.

Definition excited_keywords : list str := Eval vm_compute in map u
  [ "this is huge"; "i'm so excited"; "i am so excited";
    "this is amazing"; "i'm really excited"; "i am really excited";
    "this is incredible"; "that’s incredible"; "that's incredible";
    "this is insane"; "that's insane"; "that’s insane" ]%string.

(** [any(k in t for k in keywords)] *)
Definition any_in (keywords : list str) (t : str) : bool :=
  existsb (fun k => contains k t) keywords.

(** [tone in (a, b, ...)] *)
Definition tone_in (tone : str) (tones : list str) : bool :=
  existsb (str_eqb tone) tones.

(** ** Regular expressions of the source *)

(** The longest prefix of [s] whose characters satisfy [p], and the rest:
    what a greedy repetition of a character class consumes. *)
Fixpoint span (p : N -> bool) (s : str) : str * str :=
  match s with
  | [] => ([], [])
  | c :: r =>
    if p c then let (a, b) := span p r in (c :: a, b) else ([], s)
  end.

(** The class [[.?!]] *)
Definition is_delim (c : N) : bool := (c =? 46) || (c =? 63) || (c =? 33).

(** [re.split] on the captured class [[.?!]]: the pieces between the
    delimiters, with each delimiter (the captured group) as a piece of its
    own between them; a piece may be empty. *)
Fixpoint re_split (text : str) : list str :=
  match text with
  | [] => [[]]
  | c :: r =>
    if is_delim c then [] :: [c] :: re_split r
    else
      match re_split r with
      | piece :: pieces => (c :: piece) :: pieces
      | [] => [[c]]
      end
  end.

Definition is_upper (c : N) : bool := (65 <=? c) && (c <=? 90).
Definition is_lower (c : N) : bool := (97 <=? c) && (c <=? 122).
(** The class [[, ]] *)
Definition is_sep (c : N) : bool := (c =? 44) || (c =? 32).
(** What [.] matches: any character but the newline. *)
Definition is_dot (c : N) : bool := negb (c =? 10).

(** [re.match] of the pattern of [_soften_existing_name] on [s], and its
    three groups: the name [[A-Z][a-z]{1,20}], the separators [[, ]+] and
    the rest [.*] up to the end anchor.  The repetitions are greedy.  Giving back a character of the lowercase
    run leaves a lowercase letter where a separator is needed, and giving
    back a separator leaves the end of [.*] where it was, so the first
    match of the backtracking search, when there is one, takes the whole
    run of lowercase letters (1 to 20 of them), the whole run of
    separators, and then everything up to the end of the string; [$] also
    matches before a newline that ends the string. *)
Definition re_match_name (s : str) : option (str * str * str) :=
  match s with
  | [] => None
  | c :: r =>
    if is_upper c then
      let (lows, r1) := span is_lower r in
      if (1 <=? List.length lows)%nat && (List.length lows <=? 20)%nat then
        let (sep, r2) := span is_sep r1 in
        if (1 <=? List.length sep)%nat then
          let (rest, tail) := span is_dot r2 in
          if is_empty tail || str_eqb tail [10] then Some (c :: lows, sep, rest)
          else None
        else None
      else None
    else None
  end.

(** After a run of whitespace (possibly empty), is the next character a
    period? *)
Fixpoint period_after_spaces (s : str) : bool :=
  match s with
  | [] => false
  | c :: r => if isspace c then period_after_spaces r else c =? 46
  end.

(** [re.sub] of whitespace-then-period ([\s+\.]) by a period.  A match starts at a whitespace character
    whose (maximal) run of whitespace is followed by a period; every
    whitespace character of such a run is dropped and the period is kept.
    Whitespace followed by anything else is copied. *)
Fixpoint re_sub_space_period (s : str) : str :=
  match s with
  | [] => []
  | c :: r =>
    if isspace c && period_after_spaces r then re_sub_space_period r
    else c :: re_sub_space_period r
  end.

(** ** Exceptions *)

Inductive exn : Type := IndexError.

Inductive res (A : Type) : Type :=
| Ok (a : A)
| Raise (e : exn).
Arguments Ok {A} a.
Arguments Raise {A} e.

Definition bind {A B : Type} (m : res A) (k : A -> res B) : res B :=
  match m with
  | Ok a => k a
  | Raise e => Raise e
  end.

Notation "x <- m ;; k" := (bind m (fun x => k))
  (at level 61, m at next level, right associativity).

(** [l[-1]] *)
Definition get_last (l : list str) : res str :=
  match rev l with
  | x :: _ => Ok x
  | [] => Raise IndexError
  end.

(** [l[-1] = x] *)
Definition set_last (l : list str) (x : str) : res (list str) :=
  match rev l with
  | _ :: front => Ok (rev front ++ [x])
  | [] => Raise IndexError
  end.

(** ** The program *)

Section Prosody.

Variable unicode_lower : str -> N -> str -> str.

(** [detect_tone(text)].  The argument is a [str] or [None]; [not text]
    holds of [None] and of the empty string. *)
Definition detect_tone (text : option str) : str :=
  match text with
  | None => TONE_NEUTRAL
  | Some text =>
    if is_empty text then TONE_NEUTRAL
    else
      let t := lower unicode_lower text in
      if any_in sad_keywords t then TONE_SYMPATHETIC
      else if any_in bummed_keywords t then TONE_BUMMED
      else if any_in reassuring_keywords t then TONE_REASSURING
      else if any_in encouraging_keywords t then TONE_ENCOURAGING
      else if any_in happy_keywords t then TONE_HAPPY
      else if any_in playful_keywords t then TONE_PLAYFUL
      else if any_in intrigued_keywords t then TONE_INTRIGUED
      else if any_in caution_keywords t then TONE_CAUTION
      else if any_in excited_keywords t then TONE_EXCITED
      else TONE_NEUTRAL
  end.

(** One turn of the loop of [_split_sentences] over the pieces; the state
    is [(sentences, current)]. *)
Definition split_step (st : list str * str) (part : str) : list str * str :=
  let (sentences, current) := st in
  if is_empty part then st
  else if contains part (u ".?!") then
    let current := current ++ part in
    (sentences ++ [strip current], [])
  else if negb (is_empty current) then (sentences, current ++ part)
  else (sentences, part).

Definition _split_sentences (text : str) : list str :=
  let parts := re_split text in
  let (sentences, current) := fold_left split_step parts ([], []) in
  let sentences :=
    if negb (is_empty (strip current)) then sentences ++ [strip current]
    else sentences in
  match sentences with
  | [] => [strip text]
  | _ => sentences
  end.

(** The body of the loop of [_soften_existing_name] at index 0. *)
Definition soften_first (s : str) : str :=
  match re_match_name s with
  | Some (name, sep, rest) =>
    let rest := lstrip rest in
    if negb (is_empty rest) then name ++ u "... " ++ rest
    else name ++ u "..."
  | None => s
  end.

Fixpoint soften_loop (idx : nat) (sentences softened : list str) : list str :=
  match sentences with
  | [] => softened
  | s :: later =>
    let s := if (idx =? 0)%nat then soften_first s else s in
    soften_loop (S idx) later (softened ++ [s])
  end.

Definition _soften_existing_name (sentences : list str) (tone : str) : list str :=
  if negb (str_eqb tone TONE_SYMPATHETIC) then sentences
  else soften_loop 0 sentences [].

Definition marker_words : list str := Eval vm_compute in map u
  [ "sorry"; "hard"; "tough"; "understand"; "alone"; "worried" ]%string.

(** The loop of the sympathetic and bummed branch. *)
Fixpoint pause_loop (i : nat) (sentences shaped_lines : list str) : list str :=
  match sentences with
  | [] => shaped_lines
  | s :: later =>
    let lower_s := lower unicode_lower s in
    let s :=
      if any_in marker_words lower_s then
        if negb (endswith (u "...") s) then s ++ u "..." else s
      else s in
    let shaped_lines := shaped_lines ++ [s] in
    let shaped_lines :=
      if (i mod 2 =? 1)%nat then shaped_lines ++ [[]] else shaped_lines in
    pause_loop (S i) later shaped_lines
  end.

(** The buffering loop of the upbeat and neutral branches; it returns
    [(shaped_lines, buffer)]. *)
Fixpoint buffer_loop (limit : nat) (sentences buffer shaped_lines : list str)
  : list str * list str :=
  match sentences with
  | [] => (shaped_lines, buffer)
  | s :: later =>
    let buffer := buffer ++ [s] in
    let joined := join (u " ") buffer in
    if (limit <? List.length joined)%nat
    then buffer_loop limit later [] (shaped_lines ++ [joined])
    else buffer_loop limit later buffer shaped_lines
  end.

Definition buffered_lines (limit : nat) (sentences : list str) : list str :=
  let (shaped_lines, buffer) := buffer_loop limit sentences [] [] in
  match buffer with
  | [] => shaped_lines
  | _ => shaped_lines ++ [join (u " ") buffer]
  end.

(** The closing lift of the upbeat branch. *)
Definition closing_lift (tone last : str) : str :=
  if tone_in tone [TONE_ENCOURAGING; TONE_REASSURING; TONE_PLAYFUL] then
    if negb (existsb (fun p => endswith p last) [u "!"; u "…"; u "..."])
    then last ++ u "..." else last
  else if tone_in tone [TONE_HAPPY; TONE_EXCITED] then
    if negb (endswith (u "!") last) then last ++ u "!" else last
  else last.

(** The loop of the caution branch. *)
Fixpoint caution_loop (sentences shaped_lines : list str) : list str :=
  match sentences with
  | [] => shaped_lines
  | s :: later => caution_loop later ((shaped_lines ++ [s]) ++ [[]])
  end.

(** The tone-dependent assembly of [shaped_lines] in [format_for_tts]. *)
Definition shape_lines (tone : str) (sentences : list str) : res (list str) :=
  if tone_in tone [TONE_SYMPATHETIC; TONE_BUMMED] then
    Ok (pause_loop 0 sentences [])
  else if tone_in tone [TONE_ENCOURAGING; TONE_HAPPY; TONE_REASSURING;
                        TONE_PLAYFUL; TONE_EXCITED] then
    let shaped_lines := buffered_lines 80 sentences in
    match shaped_lines with
    | [] => Ok shaped_lines
    | _ =>
      last <- get_last shaped_lines ;;
      set_last shaped_lines (closing_lift tone last)
    end
  else if str_eqb tone TONE_CAUTION then
    Ok (caution_loop sentences [])
  else
    Ok (buffered_lines 100 sentences).

(** [while shaped_lines and not shaped_lines[0].strip(): shaped_lines.pop(0)] *)
Fixpoint drop_leading_blank (shaped_lines : list str) : list str :=
  match shaped_lines with
  | [] => []
  | first :: others =>
    if is_empty (strip first) then drop_leading_blank others
    else shaped_lines
  end.

(** [while shaped_lines and not shaped_lines[-1].strip(): shaped_lines.pop()] *)
Definition drop_trailing_blank (shaped_lines : list str) : list str :=
  rev (drop_leading_blank (rev shaped_lines)).

(** The two normalisation steps that end [format_for_tts]. *)
Definition normalize (out : str) : str :=
  let out := replace (u "...") (u "…") out in
  re_sub_space_period out.

Definition format_for_tts (text : str) : res str :=
  let text := strip text in
  if is_empty text then Ok text
  else
    let tone := detect_tone (Some text) in
    let sentences := _split_sentences text in
    let sentences := _soften_existing_name sentences tone in
    shaped_lines <- shape_lines tone sentences ;;
    let shaped_lines := drop_leading_blank shaped_lines in
    let shaped_lines := drop_trailing_blank shaped_lines in
    let out :=
      match shaped_lines with
      | [] => text
      | _ => join [10; 10] shaped_lines
      end in
    Ok (normalize out).

End Prosody.

(** ** Vocabulary of the statements *)

(** [k] occurs in [t] ([k in t], as a proposition). *)
Definition occurs_in (k t : str) : Prop := exists a b, t = a ++ k ++ b.

(** [s] ends with [p]. *)
Definition ends_with (p s : str) : Prop := exists a, s = a ++ p.

(** The ten tone labels. *)
Definition TONES : list str :=
  [ TONE_EXCITED; TONE_NEUTRAL; TONE_HAPPY; TONE_SYMPATHETIC; TONE_BUMMED;
    TONE_REASSURING; TONE_ENCOURAGING; TONE_PLAYFUL; TONE_INTRIGUED;
    TONE_CAUTION ].

(** The keyword groups with their tones, in the priority order of
    [detect_tone]. *)
Definition keyword_groups : list (str * list str) :=
  [ (TONE_SYMPATHETIC, sad_keywords); (TONE_BUMMED, bummed_keywords);
    (TONE_REASSURING, reassuring_keywords);
    (TONE_ENCOURAGING, encouraging_keywords); (TONE_HAPPY, happy_keywords);
    (TONE_PLAYFUL, playful_keywords); (TONE_INTRIGUED, intrigued_keywords);
    (TONE_CAUTION, caution_keywords); (TONE_EXCITED, excited_keywords) ].

(** A string [lower] cannot change: ASCII with no capital letter. *)
Definition caseless (k : str) : bool :=
  forallb (fun c => (c <? 128) && negb (is_upper c)) k.

(** The lines that [format_for_tts] joins: the assembled lines without the
    blank ones at both ends. *)
Definition kept_lines (lines : list str) : list str :=
  drop_trailing_blank (drop_leading_blank lines).

(** The tones of the upbeat branch of [format_for_tts]. *)
Definition upbeat_tones : list str :=
  [ TONE_ENCOURAGING; TONE_HAPPY; TONE_REASSURING; TONE_PLAYFUL; TONE_EXCITED ].

(** The literal triple dot and the ellipsis glyph of [normalize]. *)
Definition three_dots : str := Eval vm_compute in u "...".
Definition ellipsis : str := Eval vm_compute in u "…".

(** The sympathetic and bummed assembly as the specification words it.  A
    sentence is loaded when one of the marker words occurs in its
    lowercase form; a loaded sentence that does not end with three dots
    gets them; the lines are the sentences in order, one per line, with an
    empty line after each sentence of odd index. *)
Definition loaded (unicode_lower : str -> N -> str -> str) (s : str) : Prop :=
  exists word, In word marker_words /\ occurs_in word (lower unicode_lower s).

Definition with_pause (unicode_lower : str -> N -> str -> str) (s : str) : str :=
  if any_in marker_words (lower unicode_lower s) && negb (endswith three_dots s)
  then s ++ three_dots else s.

Definition pause_lines_spec (unicode_lower : str -> N -> str -> str)
  (sentences : list str) : list str :=
  List.concat (map (fun '(i, s) =>
                 if Nat.odd i then [with_pause unicode_lower s; []]
                 else [with_pause unicode_lower s])
              (combine (seq 0 (List.length sentences)) sentences)).

(** Segmentation as the specification words it: the text is cut after each
    delimiter, which stays with the sentence it ends; what follows the last
    delimiter is a last sentence when it is not blank; every sentence is
    trimmed; with no sentence at all the trimmed text is the only one. *)
Fixpoint segments (current text : str) : list str :=
  match text with
  | [] => if is_empty (strip current) then [] else [strip current]
  | c :: r =>
    if is_delim c then strip (current ++ [c]) :: segments [] r
    else segments (current ++ [c]) r
  end.

Definition segmentation (text : str) : list str :=
  match segments [] text with
  | [] => [strip text]
  | sentences => sentences
  end.

Definition no_delim (s : str) : bool := forallb (fun c => negb (is_delim c)) s.

(** A sentence ended by its delimiter, with no other delimiter in it. *)
Definition terminated (s : str) : Prop :=
  exists body d, s = body ++ [d] /\ is_delim d = true /\ no_delim body = true.

(** The shape of a list of sentences: all but the last are ended by their
    delimiter, and the last is either ended by one or has none. *)
Definition well_cut (sentences : list str) : Prop :=
  exists front last,
    sentences = front ++ [last] /\ Forall terminated front
    /\ (terminated last \/ no_delim last = true).

(** A string that is not empty and does not end with two periods: what
    every sentence and every buffered line is. *)
Definition one_stop (s : str) : Prop := s <> [] /\ ~ ends_with (u "..") s.

(** What [_split_sentences] makes of the state its loop ends in, before
    the fallback. *)
Definition flushed (st : list str * str) : list str :=
  if negb (is_empty (strip (snd st))) then fst st ++ [strip (snd st)]
  else fst st.

(** The characters of a string that are no whitespace, in their order. *)
Definition visible (s : str) : str := filter (fun c => negb (isspace c)) s.

(** What the pattern of [_soften_existing_name] asks of a string and of the
    three groups of a match: a capital letter and 1 to 20 lowercase letters,
    then commas and spaces (at least one), then characters other than the
    newline up to the end of the string or to a newline that ends it. *)
Definition name_shape (s name sep rest : str) : Prop :=
  exists c lows tail,
    s = name ++ sep ++ rest ++ tail /\ name = c :: lows /\
    is_upper c = true /\ forallb is_lower lows = true /\
    (1 <= List.length lows <= 20)%nat /\
    sep <> [] /\ forallb is_sep sep = true /\
    forallb is_dot rest = true /\ (tail = [] \/ tail = [10]).

(** A sentence that starts with a capitalised word followed by a separator
    (a comma or a space). *)
Definition starts_with_name (s : str) : Prop :=
  exists c lows d r,
    s = c :: lows ++ d :: r /\ is_upper c = true /\ lows <> []
    /\ forallb is_lower lows = true /\ is_sep d = true.

(** The first normalisation step alone. *)
Definition replace_dots (s : str) : str := replace three_dots ellipsis s.

(** No whitespace character stands immediately before a period in [s]. *)
Definition no_space_before_period (s : str) : Prop :=
  forall a c b, s = a ++ c :: 46 :: b -> isspace c = false.

(** [detect_tone] as a table: the tone of the first group of
    [keyword_groups], in their order, one of whose phrases occurs in [t],
    and neutral when there is none. *)
Definition first_match (t : str) : str :=
  match find (fun group => any_in (snd group) t) keyword_groups with
  | Some group => fst group
  | None => TONE_NEUTRAL
  end.

Definition is_ascii (s : str) : bool := forallb (fun c => c <? 128) s.

(** The tones for which [format_for_tts] adds no punctuation of its own:
    those of the caution branch and of the last branch. *)
Definition plain_tones : list str :=
  [ TONE_NEUTRAL; TONE_INTRIGUED; TONE_CAUTION ].

(** The line that [buffered_lines] makes of what its buffer holds at the
    end: none for an empty buffer. *)
Definition last_line (buffer : list str) : list str :=
  match buffer with
  | [] => []
  | _ => [join (u " ") buffer]
  end.

(** ** The callers of the core: voice.py, transcribe.py, main.py *)

(** [load_api_key] (voice.py and main.py hold the same function).
    [env_path] is the path of the key file as it prints, and [file] the
    text read from it, [None] when the file does not exist. *)
Inductive key_result : Type :=
| Key (key : str)
| RuntimeError (message : str).

Definition load_api_key (env_path : str) (file : option str) : key_result :=
  match file with
  | None =>
    RuntimeError (u "API key file not found at " ++ env_path ++ u ". "
                  ++ u "Create zelda_key.env with your OpenAI key in it.")
  | Some text =>
    let key := strip text in
    if is_empty key
    then RuntimeError (u "zelda_key.env is empty. Put your OpenAI key in it.")
    else Key key
  end.

Module Voice.

Section Speech.

Variable unicode_lower : str -> N -> str -> str.

(** What [uuid4().hex] gives at this call. *)
Variable hex : str.

(** The call of the speech provider on the shaped text and the writing of
    the file: [true] when both return, [false] when one of them raises
    (a [RateLimitError] or any other exception; both are caught). *)
Variable speech_create : str -> bool.

Definition synthesize_speech (text : str) : option str :=
  match format_for_tts unicode_lower text with
  | Raise _ => None
  | Ok tts_text =>
    let audio_filename := hex ++ u ".mp3" in
    if speech_create tts_text then Some (u "/audio/" ++ audio_filename)
    else None
  end.

End Speech.

End Voice.

Module Transcribe.

(** What the transcription provider answers: a transcript, whose [text]
    attribute is a string, is [None] or is missing (both read as [None]
    here: [getattr] with its default and [or] give the empty string for
    both), or an exception. *)
Inductive transcription : Type :=
| Transcript (text : option str)
| Raised.

Section Transcription.

Variable create : list N -> transcription.

(** [transcribe_file(file_obj)]; [data] is what [file_obj.read()] returns,
    [None] when it raises. *)
Definition transcribe_file (data : option (list N)) : str :=
  match data with
  | None => []
  | Some data =>
    match data with
    | [] => []
    | _ =>
      match create data with
      | Transcript attribute =>
        let text :=
          match attribute with
          | Some t => if is_empty t then [] else t
          | None => []
          end in
        strip text
      | Raised => []
      end
    end
  end.

End Transcription.

End Transcribe.

Module Main.

Record HistoryItem : Type := { role : str; content : str }.

Record ChatRequest : Type :=
  { message : str; mode : option str; history : option (list HistoryItem) }.

Record ChatResponse : Type :=
  { reply : str; audio_url : option str; tone : option str }.

(** What the two statements of the [try] block of [chat] come to before
    [.strip()]: the content of the first choice, a [RateLimitError], or
    another exception with the text it prints as. *)
Inductive completion : Type :=
| Completed (content : str)
| RateLimitError
| Exception (e : str).

Definition therapist_prompt : str := Eval vm_compute in u
  "You are Zelda in Therapist Mode. You communicate like a licensed professional therapist: calm, empathetic, emotionally aware, and validating. You respond in 3–12 reflective sentences, helping the user feel understood and safe. Avoid clinical jargon (unless asked) and stay warm and human.".

Definition balanced_prompt : str := Eval vm_compute in u
  "You are Zelda in Balanced Mode. You are a supportive friend with the emotional insight of a trained therapist. Respond briefly (1–4 short sentences) with warmth, clarity, and grounded emotional awareness. Be kind and understanding without being long-winded.".

Definition friendly_prompt : str := Eval vm_compute in u
  "You are Zelda in Friendly Mode. You are warm, calm, light-hearted, supportive, playful, and kind. You respond in 1–3 short sentences and focus on making the user feel comfortable and understood. Avoid deep therapeutic analysis unless the user clearly asks for it.".

Definition rate_limit_reply : str := Eval vm_compute in u
  "It looks like the API key I'm using has run out of quota or there's a billing/quota issue. Once that's sorted, I'll be able to reply normally again.".

Section Chat.

Variable unicode_lower : str -> N -> str -> str.

(** The chat provider, on the list of messages (each a role and a
    content). *)
Variable create : list (str * str) -> completion.

(** The two parameters of [Voice.synthesize_speech]. *)
Variable hex : str.
Variable speech_create : str -> bool.

(** The messages that [chat] builds for the provider. *)
Definition chat_messages (req : ChatRequest) : list (str * str) :=
  let mode :=
    lower unicode_lower
      (match mode req with
       | Some m => if is_empty m then u "friendly" else m
       | None => u "friendly"
       end) in
  let system_prompt :=
    if str_eqb mode (u "therapist") then therapist_prompt
    else if str_eqb mode (u "balanced") then balanced_prompt
    else friendly_prompt in
  let messages := [(u "system", system_prompt)] in
  let messages :=
    match history req with
    | Some ((_ :: _) as items) =>
      fold_left (fun messages item => messages ++ [(role item, content item)])
                items messages
    | _ => messages
    end in
  messages ++ [(u "user", message req)].

Definition chat (req : ChatRequest) : ChatResponse :=
  match create (chat_messages req) with
  | Completed content =>
    let reply_text := strip content in
    let tone := detect_tone unicode_lower (Some reply_text) in
    let audio_url :=
      Voice.synthesize_speech unicode_lower hex speech_create reply_text in
    {| reply := reply_text; audio_url := audio_url; tone := Some tone |}
  | RateLimitError =>
    {| reply := rate_limit_reply; audio_url := None; tone := Some (u "neutral") |}
  | Exception e =>
    {| reply := u "Something went wrong talking to the chat model: " ++ e;
       audio_url := None; tone := Some (u "neutral") |}
  end.

End Chat.

End Main.

(** * Properties *)

(** ** Strings *)

Example u_ascii : u "i'm" = [105; 39; 109].
Proof. reflexivity. Qed.

Example u_curly_apostrophe : u "’" = [8217].
Proof. reflexivity. Qed.

Example u_ellipsis : u "…" = [8230].
Proof. reflexivity. Qed.

Lemma startswith_spec p s :
  startswith p s = true <-> exists b, s = p ++ b.
Proof.
  revert s; induction p as [|a p IH]; intros s; simpl.
  - split; [intros _; now exists s | reflexivity].
  - destruct s as [|b s].
    + split; [discriminate | intros [r Hr]; discriminate].
    + rewrite andb_true_iff, N.eqb_eq, IH. split.
      * intros [-> [r ->]]. now exists r.
      * intros [r Hr]. injection Hr as -> ->. split; [reflexivity | now exists r].
Qed.

Lemma contains_spec k t : contains k t = true <-> occurs_in k t.
Proof.
  unfold occurs_in. induction t as [|c t IH].
  - simpl. rewrite orb_false_r, startswith_spec. split.
    + intros [b Hb]. now exists [], b.
    + intros [a [b H]]. destruct a; [now exists b | discriminate].
  - change (contains k (c :: t)) with (startswith k (c :: t) || contains k t).
    rewrite orb_true_iff, startswith_spec, IH. split.
    + intros [[b Hb] | [a [b Hab]]].
      * now exists [], b.
      * exists (c :: a), b. now rewrite Hab.
    + intros [[|x a] [b H]].
      * left. now exists b.
      * right. injection H as -> ->. now exists a, b.
Qed.

Lemma endswith_spec p s : endswith p s = true <-> ends_with p s.
Proof.
  unfold endswith, ends_with. rewrite startswith_spec. split.
  - intros [b Hb]. exists (rev b).
    rewrite <- (rev_involutive s), Hb, rev_app_distr, rev_involutive. reflexivity.
  - intros [a ->]. exists (rev a). now rewrite rev_app_distr.
Qed.

Lemma str_eqb_eq a b : str_eqb a b = true <-> a = b.
Proof.
  revert b; induction a as [|x a IH]; intros [|y b]; simpl;
    try (split; [discriminate | discriminate]); [tauto|].
  rewrite andb_true_iff, N.eqb_eq, IH. split.
  - now intros [-> ->].
  - intros H; injection H as -> ->. now split.
Qed.

Lemma str_eqb_refl a : str_eqb a a = true.
Proof. now apply str_eqb_eq. Qed.

(** ** The regular expressions *)

Lemma span_spec p s :
  s = fst (span p s) ++ snd (span p s) /\ forallb p (fst (span p s)) = true.
Proof.
  induction s as [|c s [IH1 IH2]]; [now split|].
  simpl. destruct (p c) eqn:Hc; [|now split].
  destruct (span p s) as [a b]. simpl in *. rewrite Hc, IH2.
  split; [now rewrite <- IH1 | reflexivity].
Qed.

(** A greedy repetition stops only where the class fails. *)
Lemma span_stops p s :
  snd (span p s) = [] \/ exists c r, snd (span p s) = c :: r /\ p c = false.
Proof.
  induction s as [|c s IH]; [now left|].
  simpl. destruct (p c) eqn:Hc.
  - now destruct (span p s).
  - right. now exists c, s.
Qed.

Lemma span_app_stop p a b :
  (b = [] \/ exists c r, b = c :: r /\ p c = false) ->
  span p (a ++ b) = (fst (span p a), snd (span p a) ++ b).
Proof.
  intros Hb. induction a as [|x a IH].
  - simpl. destruct Hb as [->|[c [r [-> Hc]]]]; [reflexivity|].
    simpl. now rewrite Hc.
  - simpl. destruct (p x); [|reflexivity].
    rewrite IH. now destruct (span p a).
Qed.

Lemma span_all p a : forallb p a = true -> span p a = (a, []).
Proof.
  induction a as [|x a IH]; intros H; [reflexivity|].
  simpl in H. apply andb_true_iff in H as [Hx Ha].
  simpl. now rewrite Hx, (IH Ha).
Qed.

Lemma span_maximal p a b :
  forallb p a = true ->
  (b = [] \/ exists c r, b = c :: r /\ p c = false) ->
  span p (a ++ b) = (a, b).
Proof.
  intros Ha Hb. now rewrite (span_app_stop p a b Hb), (span_all p a Ha).
Qed.

Lemma span_app p a b :
  forallb p a = true ->
  span p (a ++ b) = (a ++ fst (span p b), snd (span p b)).
Proof.
  induction a as [|x a IH]; intros H; [simpl; now destruct (span p b)|].
  simpl in H. apply andb_true_iff in H as [Hx Ha].
  simpl. now rewrite Hx, (IH Ha).
Qed.

(** The groups that [re_match_name] returns are a match of the pattern. *)
Lemma re_match_name_sound s name sep rest :
  re_match_name s = Some (name, sep, rest) -> name_shape s name sep rest.
Proof.
  unfold re_match_name. destruct s as [|c r]; [discriminate|].
  destruct (is_upper c) eqn:Hc; [|discriminate].
  destruct (span_spec is_lower r) as [Er Hlows].
  destruct (span is_lower r) as [lows r1]. simpl in Er, Hlows.
  destruct ((1 <=? List.length lows)%nat && (List.length lows <=? 20)%nat) eqn:Hn;
    [|discriminate].
  apply andb_true_iff in Hn as [Hn1 Hn2].
  apply Nat.leb_le in Hn1, Hn2.
  destruct (span_spec is_sep r1) as [Er1 Hsep].
  destruct (span is_sep r1) as [seps r2]. simpl in Er1, Hsep.
  destruct (1 <=? List.length seps)%nat eqn:Hs; [|discriminate].
  destruct (span_spec is_dot r2) as [Er2 Hdot].
  destruct (span is_dot r2) as [body tail]. simpl in Er2, Hdot.
  destruct (is_empty tail || str_eqb tail [10]) eqn:Ht; [|discriminate].
  intros H. injection H as <- <- <-.
  exists c, lows, tail. repeat split; try assumption.
  - rewrite Er, Er1, Er2. reflexivity.
  - intros ->. discriminate.
  - apply orb_true_iff in Ht as [Ht|Ht].
    + left. now destruct tail.
    + right. now apply str_eqb_eq.
Qed.

(** Where the pattern matches, [re_match_name] returns the match that the
    greedy search finds first: the name is the one of any match, and the
    separators are the longest run that can be taken. *)
Lemma re_match_name_greedy s name sep rest :
  name_shape s name sep rest ->
  exists more rest',
    rest = more ++ rest' /\ forallb is_sep more = true /\
    re_match_name s = Some (name, sep ++ more, rest').
Proof.
  intros (c & lows & tail & -> & -> & Hc & Hlows & [Hn1 Hn2] & Hne & Hsep
          & Hdot & Htail).
  destruct (span_spec is_sep rest) as [Erest Hmore].
  pose proof (span_stops is_sep rest) as Hstop.
  destruct (span is_sep rest) as [more rest'] eqn:Espan.
  simpl in Erest, Hmore, Hstop.
  exists more, rest'. split; [assumption|]. split; [assumption|].
  assert (Hd : forallb is_dot rest' = true).
  { rewrite Erest, forallb_app in Hdot.
    now apply andb_true_iff in Hdot as [_ Hdot]. }
  assert (Hsep1 : exists d sep0, sep = d :: sep0 /\ is_lower d = false).
  { destruct sep as [|d sep0]; [contradiction|].
    exists d, sep0. split; [reflexivity|].
    simpl in Hsep. apply andb_true_iff in Hsep as [Hd0 _].
    unfold is_sep in Hd0. apply orb_true_iff in Hd0 as [Hd0|Hd0];
      apply N.eqb_eq in Hd0; subst d; reflexivity. }
  destruct Hsep1 as (d & sep0 & Esep & Hdl).
  assert (Htail' : tail = [] \/ exists x r, tail = x :: r /\ is_dot x = false).
  { destruct Htail as [->| ->]; [now left | right; now exists 10, []]. }
  assert (Hstop' : rest' ++ tail = []
                   \/ exists x r, rest' ++ tail = x :: r /\ is_sep x = false).
  { destruct Hstop as [->|(x & r & -> & Hx)].
    - destruct Htail as [->| ->]; [now left | right; now exists 10, []].
    - right. now exists x, (r ++ tail). }
  unfold re_match_name. cbn [app]. rewrite Hc.
  rewrite (span_maximal is_lower lows (sep ++ rest ++ tail) Hlows)
    by (right; exists d, (sep0 ++ rest ++ tail); subst sep; now split).
  destruct (Nat.leb_spec 1 (List.length lows)) as [_|?]; [|lia].
  destruct (Nat.leb_spec (List.length lows) 20) as [_|?]; [|lia].
  cbn [andb].
  rewrite (span_app is_sep sep (rest ++ tail) Hsep).
  rewrite Erest, <- app_assoc.
  rewrite (span_maximal is_sep more (rest' ++ tail) Hmore Hstop').
  cbn [fst snd].
  replace (1 <=? List.length (sep ++ more))%nat with true
    by (subst sep; reflexivity).
  rewrite (span_maximal is_dot rest' tail Hd Htail').
  destruct Htail as [->| ->]; reflexivity.
Qed.

Lemma period_after_spaces_spec r :
  period_after_spaces r = true
  <-> exists w b, r = w ++ 46 :: b /\ forallb isspace w = true.
Proof.
  split.
  - induction r as [|c r IH]; [discriminate|].
    simpl. destruct (isspace c) eqn:Hc.
    + intros H. destruct (IH H) as [w [b [-> Hw]]].
      exists (c :: w), b. split; [reflexivity|]. simpl. now rewrite Hc.
    + intros H. apply N.eqb_eq in H as ->. now exists [], r.
  - intros [w [b [-> Hw]]]. induction w as [|c w IH]; [reflexivity|].
    simpl in Hw. apply andb_true_iff in Hw as [Hc Hw].
    simpl. rewrite Hc. now apply IH.
Qed.

(** [re.sub]: where whitespace (at least one character) is followed by a
    period, the whole match is replaced by a period and the scan goes on
    after it. *)
Lemma re_sub_at_match w b :
  forallb isspace w = true ->
  re_sub_space_period (w ++ 46 :: b) = 46 :: re_sub_space_period b.
Proof.
  intros Hw. induction w as [|c w IH]; [reflexivity|].
  simpl in Hw. apply andb_true_iff in Hw as [Hc Hw].
  simpl. rewrite Hc.
  assert (Hp : period_after_spaces (w ++ 46 :: b) = true)
    by (apply period_after_spaces_spec; now exists w, b).
  rewrite Hp. simpl. now apply IH.
Qed.

(** Where no match starts, the character is copied. *)
Lemma re_sub_no_match c r :
  isspace c = false \/ period_after_spaces r = false ->
  re_sub_space_period (c :: r) = c :: re_sub_space_period r.
Proof.
  intros [H|H]; simpl; rewrite H; [reflexivity | now rewrite andb_false_r].
Qed.

(** [re.split] loses nothing: the pieces set end to end are the text. *)
Lemma re_split_concat text : List.concat (re_split text) = text.
Proof.
  induction text as [|c r IH]; [reflexivity|].
  simpl. destruct (is_delim c).
  - simpl. now rewrite IH.
  - destruct (re_split r) as [|piece pieces]; simpl in *; now rewrite IH.
Qed.

(** ** Tone detection *)

Section Tone.

Variable unicode_lower : str -> N -> str -> str.

Lemma lower_from_caseless k : caseless k = true ->
  forall before after,
    lower_from unicode_lower before (k ++ after)
    = k ++ lower_from unicode_lower (rev k ++ before) after.
Proof.
  induction k as [|c k IH]; intros Hk before after; [reflexivity|].
  simpl in Hk. apply andb_true_iff in Hk as [Hc Hk].
  apply andb_true_iff in Hc as [Hascii Hup].
  simpl. unfold lower_char at 1. rewrite Hascii.
  unfold ascii_lower. unfold is_upper in Hup.
  apply negb_true_iff in Hup. rewrite Hup. simpl.
  rewrite (IH Hk). now rewrite <- app_assoc.
Qed.

Lemma lower_from_occurs k : caseless k = true ->
  forall t before, occurs_in k t ->
    occurs_in k (lower_from unicode_lower before t).
Proof.
  intros Hk t before [a [b ->]]. revert before.
  induction a as [|c a IH]; intros before.
  - simpl. rewrite (lower_from_caseless k Hk). now exists [], (lower_from unicode_lower (rev k ++ before) b).
  - simpl. destruct (IH (c :: before)) as [a' [b' ->]].
    exists (lower_char unicode_lower before c (a ++ k ++ b) ++ a'), b'.
    now rewrite <- app_assoc.
Qed.

Lemma lower_occurs k t : caseless k = true ->
  occurs_in k t -> occurs_in k (lower unicode_lower t).
Proof. intros Hk H. now apply lower_from_occurs. Qed.

Lemma any_in_true keywords t k :
  In k keywords -> occurs_in k t -> any_in keywords t = true.
Proof.
  intros Hin Hocc. apply existsb_exists. exists k. split; [assumption|].
  now apply contains_spec.
Qed.

Lemma sad_keywords_caseless k : In k sad_keywords -> caseless k = true.
Proof.
  assert (H : forallb caseless sad_keywords = true) by (vm_compute; reflexivity).
  rewrite forallb_forall in H. apply H.
Qed.

(** C1. Whenever a phrase of the sympathetic group occurs in the input
    (as written, or after lowercasing), [detect_tone] answers
    [sympathetic], whatever phrases of the later groups occur beside it:
    no condition on the other groups is needed. *)
Theorem sympathetic_shadows_later_groups (text k : str) :
  In k sad_keywords ->
  occurs_in k text \/ occurs_in k (lower unicode_lower text) ->
  detect_tone unicode_lower (Some text) = TONE_SYMPATHETIC.
Proof.
  intros Hin Hocc.
  assert (Hl : occurs_in k (lower unicode_lower text)).
  { destruct Hocc as [H|H]; [|assumption].
    apply lower_occurs; [now apply sad_keywords_caseless | assumption]. }
  assert (Hany := any_in_true sad_keywords _ k Hin Hl).
  unfold detect_tone. destruct text as [|c text].
  - vm_compute in Hany. discriminate.
  - cbn [is_empty]. now rewrite Hany.
Qed.

Lemma detect_tone_cases (text : option str) :
  In (detect_tone unicode_lower text) TONES.
Proof.
  unfold detect_tone, TONES. destruct text as [text|]; [|simpl; tauto].
  destruct (is_empty text); [simpl; tauto|].
  repeat match goal with
         | |- In (if ?b then _ else _) _ => destruct b
         end; simpl; tauto.
Qed.

Lemma detect_tone_no_match (text : str) :
  (forall group, In group keyword_groups ->
     any_in (snd group) (lower unicode_lower text) = false) ->
  detect_tone unicode_lower (Some text) = TONE_NEUTRAL.
Proof.
  intros H. unfold detect_tone. destruct (is_empty text); [reflexivity|].
  cbv zeta.
  repeat match goal with
         | |- (if any_in ?ks ?t then ?tone else _) = _ =>
           let E := fresh "E" in
           assert (E : any_in ks t = false)
             by (apply (H (tone, ks)); simpl; tauto);
           rewrite E
         end.
  reflexivity.
Qed.

Lemma detect_tone_onto (tone : str) :
  In tone TONES -> exists text, detect_tone unicode_lower (Some text) = tone.
Proof.
  unfold TONES. simpl. intros H.
  repeat destruct H as [H|H]; try contradiction; subst tone.
  - exists (u "this is huge"). reflexivity.
  - exists (u "good morning"). reflexivity.
  - exists (u "congrats"). reflexivity.
  - exists (u "i am sorry"). reflexivity.
  - exists (u "that sucks"). reflexivity.
  - exists (u "do not worry"). reflexivity.
  - exists (u "keep going"). reflexivity.
  - exists (u "just kidding"). reflexivity.
  - exists (u "i wonder"). reflexivity.
  - exists (u "be careful"). reflexivity.
Qed.

(** C2. [detect_tone] returns, for every input, one of the ten tone
    labels, and each of the ten is returned for some input; the ten labels
    are the ten strings of the specification, pairwise distinct; [None]
    and the empty string give [neutral], and so does every input in which
    no keyword group matches. *)
Theorem detect_tone_total_on_ten_labels :
  (forall text, In (detect_tone unicode_lower text) TONES) /\
  (forall tone, In tone TONES ->
     exists text, detect_tone unicode_lower (Some text) = tone) /\
  TONES = map u [ "excited"; "neutral"; "happy"; "sympathetic"; "bummed";
                  "reassuring"; "encouraging"; "playful"; "intrigued";
                  "caution" ]%string /\
  NoDup TONES /\
  detect_tone unicode_lower None = TONE_NEUTRAL /\
  detect_tone unicode_lower (Some []) = TONE_NEUTRAL /\
  (forall text,
     (forall group, In group keyword_groups ->
        any_in (snd group) (lower unicode_lower text) = false) ->
     detect_tone unicode_lower (Some text) = TONE_NEUTRAL).
Proof.
  split; [exact detect_tone_cases|].
  split; [exact detect_tone_onto|].
  split; [reflexivity|].
  split.
  { unfold TONES. repeat constructor; simpl; intuition discriminate. }
  split; [reflexivity|]. split; [reflexivity|].
  exact detect_tone_no_match.
Qed.

(** C4. The caution list holds the phrase [i’d strongly recommend] with the
    curly apostrophe only: the straight spelling is no entry of the list
    (while [it's important to] is there in both spellings), and an input
    that is the straight spelling is classified [neutral], not
    [caution]. *)
Theorem straight_recommend_is_not_caution :
  detect_tone unicode_lower (Some (u "i'd strongly recommend")) = TONE_NEUTRAL /\
  detect_tone unicode_lower (Some (u "i’d strongly recommend")) = TONE_CAUTION /\
  In (u "i’d strongly recommend") caution_keywords /\
  ~ In (u "i'd strongly recommend") caution_keywords /\
  In (u "it's important to") caution_keywords /\
  In (u "it’s important to") caution_keywords.
Proof.
  split; [reflexivity|]. split; [reflexivity|].
  split; [vm_compute; tauto|]. split; [|vm_compute; tauto].
  vm_compute. intuition discriminate.
Qed.

End Tone.

(** ** Normalisation *)

Lemma normalize_unfold s :
  normalize s = re_sub_space_period (replace_dots s).
Proof. reflexivity. Qed.

Lemma replace_dots_hit r :
  replace_dots (46 :: 46 :: 46 :: r) = 8230 :: replace_dots r.
Proof. reflexivity. Qed.

Lemma replace_dots_miss c r :
  startswith three_dots (c :: r) = false ->
  replace_dots (c :: r) = c :: replace_dots r.
Proof.
  intros H. unfold replace_dots, replace. cbn [replace_from]. now rewrite H.
Qed.

(** Induction along the scan of [replace]: at each position either the
    three dots are found and passed over, or one character is copied. *)
Lemma replace_dots_ind (P : str -> Prop) :
  P [] ->
  (forall r, P r -> P (46 :: 46 :: 46 :: r)) ->
  (forall c r, startswith three_dots (c :: r) = false -> P r -> P (c :: r)) ->
  forall s, P s.
Proof.
  intros Hnil Hhit Hmiss s.
  assert (H : forall n t, (List.length t <= n)%nat -> P t).
  { induction n as [|n IH]; intros t Hlen.
    - destruct t; [exact Hnil | simpl in Hlen; lia].
    - destruct t as [|c r]; [exact Hnil|].
      destruct (startswith three_dots (c :: r)) eqn:E.
      + apply startswith_spec in E as [b Hb]. simpl in Hb.
        injection Hb as -> ->. apply Hhit, IH. simpl in Hlen. lia.
      + apply Hmiss; [assumption|]. apply IH. simpl in Hlen. lia. }
  now apply (H (List.length s)).
Qed.

Lemma replace_dots_length s :
  (List.length (replace_dots s) <= List.length s)%nat.
Proof.
  induction s as [|r IH|c r E IH] using replace_dots_ind.
  - simpl. lia.
  - rewrite replace_dots_hit. simpl. lia.
  - rewrite replace_dots_miss by assumption. simpl. lia.
Qed.

Lemma replace_dots_shrinks s :
  contains three_dots s = true ->
  (List.length (replace_dots s) < List.length s)%nat.
Proof.
  induction s as [|r IH|c r E IH] using replace_dots_ind; intros H.
  - discriminate.
  - rewrite replace_dots_hit. pose proof (replace_dots_length r). simpl. lia.
  - rewrite replace_dots_miss by assumption.
    change (contains three_dots (c :: r))
      with (startswith three_dots (c :: r) || contains three_dots r) in H.
    rewrite E in H. simpl in H. specialize (IH H). simpl. lia.
Qed.

Lemma replace_dots_fixed s :
  contains three_dots s = false -> replace_dots s = s.
Proof.
  induction s as [|c r IH]; intros H; [reflexivity|].
  change (contains three_dots (c :: r))
    with (startswith three_dots (c :: r) || contains three_dots r) in H.
  apply orb_false_iff in H as [E H].
  rewrite replace_dots_miss by assumption. now rewrite IH.
Qed.

(** The head of the result of [replace] is the head of its argument or the
    glyph. *)
Lemma replace_dots_head_period s t :
  replace_dots s = 46 :: t -> exists r, s = 46 :: r /\ replace_dots r = t
                                       /\ startswith three_dots s = false.
Proof.
  destruct s as [|c r]; [discriminate|].
  destruct (startswith three_dots (c :: r)) eqn:E.
  - apply startswith_spec in E as [b Hb]. simpl in Hb. injection Hb as -> ->.
    rewrite replace_dots_hit. discriminate.
  - rewrite replace_dots_miss by assumption. intros H. injection H as -> <-.
    now exists r.
Qed.

Lemma replace_dots_no_dots s : contains three_dots (replace_dots s) = false.
Proof.
  induction s as [|r IH|c r E IH] using replace_dots_ind.
  - reflexivity.
  - rewrite replace_dots_hit.
    change (contains three_dots (8230 :: replace_dots r))
      with (startswith three_dots (8230 :: replace_dots r)
            || contains three_dots (replace_dots r)).
    now rewrite IH.
  - rewrite replace_dots_miss by assumption.
    change (contains three_dots (c :: replace_dots r))
      with (startswith three_dots (c :: replace_dots r)
            || contains three_dots (replace_dots r)).
    rewrite IH, orb_false_r.
    destruct (startswith three_dots (c :: replace_dots r)) eqn:F; [|reflexivity].
    exfalso. apply startswith_spec in F as [b Hb]. simpl in Hb.
    injection Hb as -> Hb.
    apply replace_dots_head_period in Hb as [r1 [-> [Hb _]]].
    apply replace_dots_head_period in Hb as [r2 [-> _]].
    simpl in E. discriminate.
Qed.

Lemma replace_dots_idempotent s : replace_dots (replace_dots s) = replace_dots s.
Proof. apply replace_dots_fixed, replace_dots_no_dots. Qed.

Lemma period_after_spaces_witness c r :
  isspace c = true -> period_after_spaces r = true ->
  exists a x b, c :: r = a ++ x :: 46 :: b /\ isspace x = true.
Proof.
  revert c; induction r as [|d r IH]; intros c Hc H; [discriminate|].
  simpl in H. destruct (isspace d) eqn:Hd.
  - destruct (IH d Hd H) as [a [x [b [E Hx]]]].
    exists (c :: a), x, b. now rewrite E.
  - apply N.eqb_eq in H as ->. now exists [], c, r.
Qed.

Lemma period_after_spaces_skip w b :
  forallb isspace w = true -> period_after_spaces (w ++ 46 :: b) = true.
Proof.
  induction w as [|c w IH]; intros H; [reflexivity|].
  simpl in H. apply andb_true_iff in H as [Hc Hw].
  simpl. rewrite Hc. now apply IH.
Qed.

Lemma period_after_spaces_insert a w b :
  forallb isspace w = true ->
  period_after_spaces (a ++ w ++ 46 :: b) = period_after_spaces (a ++ 46 :: b).
Proof.
  intros Hw. induction a as [|c a IH].
  - simpl app. now rewrite period_after_spaces_skip.
  - simpl. now rewrite IH.
Qed.

Lemma re_sub_head_period r b :
  re_sub_space_period r = 46 :: b -> period_after_spaces r = true.
Proof.
  induction r as [|c r IH]; [discriminate|]. simpl.
  destruct (isspace c) eqn:Hc; simpl.
  - destruct (period_after_spaces r) eqn:Hp; [reflexivity|].
    intros H. injection H as -> _. discriminate.
  - intros H. injection H as -> _. reflexivity.
Qed.

Lemma no_space_before_period_tail c s :
  no_space_before_period (c :: s) -> no_space_before_period s.
Proof. intros H a x b E. apply (H (c :: a) x b). now rewrite E. Qed.

Lemma no_space_before_period_cons c s :
  (forall b, s = 46 :: b -> isspace c = false) ->
  no_space_before_period s -> no_space_before_period (c :: s).
Proof.
  intros Hc Hs [|y a] x b E; simpl in E; injection E as -> E.
  - now apply (Hc b).
  - now apply (Hs a x b).
Qed.

Lemma re_sub_clean s : no_space_before_period (re_sub_space_period s).
Proof.
  induction s as [|c s IH]; [intros [|? ?] ? ? E; discriminate|].
  simpl. destruct (isspace c) eqn:Hc; simpl.
  - destruct (period_after_spaces s) eqn:Hp; [assumption|].
    apply no_space_before_period_cons; [|assumption].
    intros b E. apply re_sub_head_period in E. congruence.
  - apply no_space_before_period_cons; [|assumption]. intros; assumption.
Qed.

Lemma re_sub_fixed s :
  no_space_before_period s -> re_sub_space_period s = s.
Proof.
  induction s as [|c s IH]; intros H; [reflexivity|].
  simpl. rewrite (IH (no_space_before_period_tail _ _ H)).
  destruct (isspace c) eqn:Hc; [|reflexivity].
  destruct (period_after_spaces s) eqn:Hp; [|reflexivity].
  destruct (period_after_spaces_witness c s Hc Hp) as [a [x [b [E Hx]]]].
  rewrite (H a x b E) in Hx. discriminate.
Qed.

Lemma re_sub_idempotent s :
  re_sub_space_period (re_sub_space_period s) = re_sub_space_period s.
Proof. apply re_sub_fixed, re_sub_clean. Qed.

Lemma re_sub_length s :
  (List.length (re_sub_space_period s) <= List.length s)%nat.
Proof.
  induction s as [|c s IH]; simpl; [lia|].
  destruct (isspace c && period_after_spaces s); simpl; lia.
Qed.

Lemma re_sub_no_space q :
  forallb (fun c => negb (isspace c)) q = true -> re_sub_space_period q = q.
Proof.
  induction q as [|c q IH]; intros H; [reflexivity|].
  simpl in H. apply andb_true_iff in H as [Hc Hq].
  apply negb_true_iff in Hc. simpl. rewrite Hc. simpl. now rewrite IH.
Qed.

(** Characters that are no whitespace are never removed: a suffix without
    whitespace is kept as it is. *)
Lemma re_sub_keeps_suffix p q :
  forallb (fun c => negb (isspace c)) q = true ->
  exists x, re_sub_space_period (p ++ q) = x ++ q.
Proof.
  intros Hq. induction p as [|c p [x IH]].
  - exists []. now apply re_sub_no_space.
  - simpl. destruct (isspace c && period_after_spaces (p ++ q)).
    + now exists x.
    + exists (c :: x). now rewrite IH.
Qed.

(** A run of whitespace before a period is absorbed, whatever precedes. *)
Lemma re_sub_absorbs a w b :
  forallb isspace w = true ->
  re_sub_space_period (a ++ w ++ 46 :: b) = re_sub_space_period (a ++ 46 :: b).
Proof.
  intros Hw. induction a as [|c a IH].
  - simpl app. induction w as [|d w IHw]; [reflexivity|].
    simpl in Hw. apply andb_true_iff in Hw as [Hd Hw].
    simpl. rewrite Hd, (period_after_spaces_skip w b Hw). simpl. now apply IHw.
  - simpl. rewrite IH, (period_after_spaces_insert a w b Hw). reflexivity.
Qed.

Lemma replace_dots_clean s :
  no_space_before_period s -> no_space_before_period (replace_dots s).
Proof.
  induction s as [|r IH|c r E IH] using replace_dots_ind; intros H.
  - exact H.
  - rewrite replace_dots_hit. apply no_space_before_period_cons.
    + intros; reflexivity.
    + apply IH. do 3 apply no_space_before_period_tail in H. exact H.
  - rewrite replace_dots_miss by assumption.
    apply no_space_before_period_cons.
    + intros b Hb. apply replace_dots_head_period in Hb as [r1 [-> _]].
      now apply (H [] c r1).
    + apply IH. now apply no_space_before_period_tail in H.
Qed.

Lemma normalize_fixed s :
  contains three_dots s = false -> no_space_before_period s -> normalize s = s.
Proof.
  intros Hd Hs. rewrite normalize_unfold, (replace_dots_fixed s Hd).
  now apply re_sub_fixed.
Qed.

Lemma normalize_clean s : no_space_before_period (normalize s).
Proof. rewrite normalize_unfold. apply re_sub_clean. Qed.

(** C9 (as amended). Each of the two normalisation steps is idempotent.
    The two steps together are idempotent on a string exactly when its
    normalised form holds no literal triple dot, which is so for every
    string with no whitespace immediately before a period; removing the
    whitespace before a period can put three periods side by side, and a
    second run then turns them into the glyph. *)
Theorem normalize_idempotent_iff (s : str) :
  (normalize (normalize s) = normalize s
   <-> contains three_dots (normalize s) = false) /\
  (no_space_before_period s -> normalize (normalize s) = normalize s) /\
  replace_dots (replace_dots s) = replace_dots s /\
  re_sub_space_period (re_sub_space_period s) = re_sub_space_period s.
Proof.
  split; [split|split; [|split]].
  - intros H. destruct (contains three_dots (normalize s)) eqn:E; [|reflexivity].
    exfalso. apply replace_dots_shrinks in E.
    pose proof (re_sub_length (replace_dots (normalize s))) as L.
    rewrite <- normalize_unfold, H in L. lia.
  - intros H. apply normalize_fixed; [assumption | apply normalize_clean].
  - intros H. apply normalize_fixed; [|apply normalize_clean].
    rewrite normalize_unfold, (re_sub_fixed _ (replace_dots_clean s H)).
    apply replace_dots_no_dots.
  - apply replace_dots_idempotent.
  - apply re_sub_idempotent.
Qed.

(** ** Stripping, lines and joining *)

Lemma lstrip_blank s : forallb isspace s = true -> lstrip s = [].
Proof.
  induction s as [|c s IH]; intros H; [reflexivity|].
  simpl in H. apply andb_true_iff in H as [Hc Hs]. simpl. now rewrite Hc, IH.
Qed.

Lemma strip_blank s : forallb isspace s = true -> strip s = [].
Proof. intros H. unfold strip. now rewrite lstrip_blank. Qed.

Lemma lstrip_snoc a c :
  isspace c = false -> exists a', lstrip (a ++ [c]) = a' ++ [c].
Proof.
  intros Hc. induction a as [|x a [a' IH]].
  - exists []. simpl. now rewrite Hc.
  - simpl. destruct (isspace x); [now exists a' | now exists (x :: a)].
Qed.

Lemma rstrip_snoc a c : isspace c = false -> rstrip (a ++ [c]) = a ++ [c].
Proof.
  intros Hc. unfold rstrip. rewrite rev_app_distr. simpl. rewrite Hc.
  simpl. now rewrite rev_involutive.
Qed.

Lemma strip_snoc a c :
  isspace c = false -> exists a', strip (a ++ [c]) = a' ++ [c].
Proof.
  intros Hc. unfold strip. destruct (lstrip_snoc a c Hc) as [a' ->].
  exists a'. now apply rstrip_snoc.
Qed.

(** A line that ends with a character that is no whitespace is not blank. *)
Lemma not_blank_snoc a c :
  isspace c = false -> is_empty (strip (a ++ [c])) = false.
Proof.
  intros Hc. destruct (strip_snoc a c Hc) as [a' ->]. now destruct a'.
Qed.

Section Lines.

Variable last : str.
Hypothesis last_not_blank : is_empty (strip last) = false.

Lemma drop_leading_blank_keeps_last front :
  exists front', drop_leading_blank (front ++ [last]) = front' ++ [last].
Proof.
  induction front as [|x front [front' IH]].
  - exists []. simpl. now rewrite last_not_blank.
  - simpl. destruct (is_empty (strip x)); [now exists front'|].
    now exists (x :: front).
Qed.

Lemma drop_trailing_blank_keeps_last front :
  drop_trailing_blank (front ++ [last]) = front ++ [last].
Proof.
  unfold drop_trailing_blank. rewrite rev_app_distr. simpl.
  rewrite last_not_blank. simpl. now rewrite rev_involutive.
Qed.

End Lines.

Lemma join_snoc sep front last :
  exists x, join sep (front ++ [last]) = x ++ last.
Proof.
  induction front as [|y front [x IH]].
  - now exists [].
  - exists (y ++ sep ++ x). simpl app.
    destruct (front ++ [last]) as [|z l] eqn:E; [now destruct front|].
    change (join sep (y :: z :: l)) with (y ++ sep ++ join sep (z :: l)).
    rewrite IH. now rewrite <- !app_assoc.
Qed.

Lemma get_last_snoc front last : get_last (front ++ [last]) = Ok last.
Proof. unfold get_last. now rewrite rev_app_distr. Qed.

Lemma set_last_snoc front last x :
  set_last (front ++ [last]) x = Ok (front ++ [x]).
Proof. unfold set_last. rewrite rev_app_distr. simpl. now rewrite rev_involutive. Qed.

Lemma snoc_of_nonempty (l : list str) :
  l <> [] -> exists front last, l = front ++ [last].
Proof.
  intros H. destruct (exists_last H) as [front [last E]]. now exists front, last.
Qed.

(** ** What normalisation leaves at the end of a string *)

Lemma startswith_dots_snoc s c :
  c <> 46 -> startswith three_dots (s ++ [c]) = startswith three_dots s.
Proof.
  intros Hc. apply N.eqb_neq in Hc. rewrite N.eqb_sym in Hc.
  unfold three_dots.
  destruct s as [|x [|y [|z s]]]; cbn [app startswith];
    rewrite ?Hc, ?andb_false_r; reflexivity.
Qed.

Lemma replace_dots_snoc (s : str) c :
  c <> 46 -> replace_dots (s ++ [c]) = replace_dots s ++ [c].
Proof.
  intros Hc. induction s as [|r IH|x r E IH] using replace_dots_ind.
  - simpl app. rewrite replace_dots_miss; [reflexivity|].
    exact (startswith_dots_snoc [] c Hc).
  - simpl app. now rewrite !replace_dots_hit, IH.
  - simpl app. rewrite !replace_dots_miss, IH; try assumption; [reflexivity|].
    change (x :: r ++ [c]) with ((x :: r) ++ [c]).
    now rewrite startswith_dots_snoc.
Qed.

Lemma ends_with_cons p c s : ends_with p s -> ends_with p (c :: s).
Proof. intros [a ->]. now exists (c :: a). Qed.

(** Where a string ends with three dots, its image by [replace] ends with
    the glyph, followed by the one or two dots that a run of dots whose
    length is no multiple of three leaves over. *)
Lemma replace_dots_ending (s : str) :
  ends_with three_dots s ->
  ends_with [8230] (replace_dots s)
  \/ ends_with [8230; 46] (replace_dots s)
  \/ ends_with [8230; 46; 46] (replace_dots s).
Proof.
  induction s as [|r IH|c r E IH] using replace_dots_ind; intros [a Ha].
  - destruct a; discriminate.
  - rewrite replace_dots_hit.
    destruct a as [|x [|y [|z a]]]; simpl in Ha.
    + injection Ha as Hr; subst. left. exists []. reflexivity.
    + injection Ha as Hx Hr; subst. right; left. exists []. reflexivity.
    + injection Ha as Hx Hy Hr; subst. right; right. exists []. reflexivity.
    + injection Ha as Hx Hy Hz Hr; subst.
      specialize (IH (ex_intro _ a eq_refl)).
      destruct IH as [H|[H|H]];
        [left | right; left | right; right]; now apply ends_with_cons.
  - rewrite replace_dots_miss by assumption.
    destruct a as [|x a]; simpl in Ha.
    + rewrite Ha in E. discriminate.
    + injection Ha as Hx Hr; subst.
      specialize (IH (ex_intro _ a eq_refl)).
      destruct IH as [H|[H|H]];
        [left | right; left | right; right]; now apply ends_with_cons.
Qed.

Lemma normalize_keeps_ending s q :
  forallb (fun c => negb (isspace c)) q = true ->
  ends_with q (replace_dots s) -> ends_with q (normalize s).
Proof.
  intros Hq [a Ha]. rewrite normalize_unfold, Ha.
  destruct (re_sub_keeps_suffix a q Hq) as [x ->]. now exists x.
Qed.

Lemma normalize_ending_char s c :
  c <> 46 -> isspace c = false -> ends_with [c] (normalize (s ++ [c])).
Proof.
  intros Hc Hs. apply normalize_keeps_ending.
  - simpl. now rewrite Hs.
  - rewrite replace_dots_snoc by assumption. now exists (replace_dots s).
Qed.

Lemma normalize_ending_dots s :
  ends_with three_dots s ->
  ends_with [8230] (normalize s)
  \/ ends_with [8230; 46] (normalize s)
  \/ ends_with [8230; 46; 46] (normalize s).
Proof.
  intros H. destruct (replace_dots_ending s H) as [E|[E|E]];
    [left | right; left | right; right];
    (apply normalize_keeps_ending; [reflexivity | assumption]).
Qed.

(** ** Sentences and lines are never missing *)

Lemma tone_in_In tone tones : tone_in tone tones = true -> In tone tones.
Proof.
  unfold tone_in. rewrite existsb_exists. intros [t [Hin Ht]].
  apply str_eqb_eq in Ht. now subst.
Qed.

Lemma _split_sentences_nonempty text : _split_sentences text <> [].
Proof.
  unfold _split_sentences.
  destruct (fold_left split_step (re_split text) ([], [])) as [sentences current].
  destruct (if negb (is_empty (strip current))
            then sentences ++ [strip current] else sentences); discriminate.
Qed.

Lemma buffer_loop_nonempty limit sentences :
  forall buffer lines,
    sentences <> [] \/ buffer <> [] \/ lines <> [] ->
    fst (buffer_loop limit sentences buffer lines) <> []
    \/ snd (buffer_loop limit sentences buffer lines) <> [].
Proof.
  induction sentences as [|s later IH]; intros buffer lines H.
  - simpl. destruct H as [H|[H|H]]; [contradiction | now right | now left].
  - simpl. destruct (_ <? _)%nat; apply IH; right.
    + right. now destruct lines.
    + left. now destruct buffer.
Qed.

Lemma buffered_lines_nonempty limit sentences :
  sentences <> [] -> buffered_lines limit sentences <> [].
Proof.
  intros H. unfold buffered_lines.
  destruct (buffer_loop_nonempty limit sentences [] [] (or_introl H)) as [F|F];
    destruct (buffer_loop limit sentences [] []) as [lines buffer];
    simpl in F; destruct buffer; try assumption;
    try (now destruct lines); contradiction.
Qed.

(** ** Shaping *)

Section Shaping.

Variable unicode_lower : str -> N -> str -> str.

(** The closing lift is written on the last line and nowhere else. *)
Lemma shape_lines_upbeat tone sentences :
  tone_in tone [TONE_SYMPATHETIC; TONE_BUMMED] = false ->
  tone_in tone [TONE_ENCOURAGING; TONE_HAPPY; TONE_REASSURING;
                TONE_PLAYFUL; TONE_EXCITED] = true ->
  forall front last, buffered_lines 80 sentences = front ++ [last] ->
  shape_lines unicode_lower tone sentences
  = Ok (front ++ [closing_lift tone last]).
Proof.
  intros H1 H2 front last E. unfold shape_lines. rewrite H1, H2, E.
  destruct (front ++ [last]) eqn:F; [now destruct front|].
  rewrite <- F, get_last_snoc. simpl. apply set_last_snoc.
Qed.

Lemma shape_lines_returns tone sentences :
  exists lines, shape_lines unicode_lower tone sentences = Ok lines.
Proof.
  destruct (tone_in tone [TONE_SYMPATHETIC; TONE_BUMMED]) eqn:H1.
  { unfold shape_lines. rewrite H1. eexists; reflexivity. }
  destruct (tone_in tone [TONE_ENCOURAGING; TONE_HAPPY; TONE_REASSURING;
                          TONE_PLAYFUL; TONE_EXCITED]) eqn:H2.
  - destruct (buffered_lines 80 sentences) as [|l0 ls] eqn:E.
    + unfold shape_lines. rewrite H1, H2, E. eexists; reflexivity.
    + destruct (snoc_of_nonempty (l0 :: ls)) as [front [last F]]; [discriminate|].
      rewrite F in E. eexists.
      exact (shape_lines_upbeat tone sentences H1 H2 front last E).
  - unfold shape_lines. rewrite H1, H2.
    destruct (str_eqb tone TONE_CAUTION); eexists; reflexivity.
Qed.

Lemma format_for_tts_unfold text lines :
  is_empty (strip text) = false ->
  shape_lines unicode_lower (detect_tone unicode_lower (Some (strip text)))
    (_soften_existing_name (_split_sentences (strip text))
       (detect_tone unicode_lower (Some (strip text)))) = Ok lines ->
  format_for_tts unicode_lower text
  = Ok (normalize (match kept_lines lines with
                   | [] => strip text
                   | _ => join [10; 10] (kept_lines lines)
                   end)).
Proof.
  intros Hne Hl. unfold format_for_tts. rewrite Hne. cbv zeta.
  rewrite Hl. reflexivity.
Qed.

Lemma format_for_tts_returns text :
  exists out, format_for_tts unicode_lower text = Ok out.
Proof.
  destruct (is_empty (strip text)) eqn:Hne.
  - unfold format_for_tts. rewrite Hne. eexists; reflexivity.
  - destruct (shape_lines_returns
                (detect_tone unicode_lower (Some (strip text)))
                (_soften_existing_name (_split_sentences (strip text))
                   (detect_tone unicode_lower (Some (strip text)))))
      as [lines Hl].
    rewrite (format_for_tts_unfold text lines Hne Hl). eexists; reflexivity.
Qed.

(** C3. Neither operation raises: [format_for_tts] returns a string for
    every input and [detect_tone] returns a tone for every input (a string
    or [None]); on an empty or whitespace-only string [format_for_tts]
    returns the trimmed string, which is empty. *)
Theorem operations_never_raise :
  (forall text, exists out, format_for_tts unicode_lower text = Ok out) /\
  (forall text, exists tone,
      detect_tone unicode_lower text = tone /\ In tone TONES) /\
  (forall text, forallb isspace text = true ->
      strip text = [] /\ format_for_tts unicode_lower text = Ok (strip text)) /\
  format_for_tts unicode_lower (u "   ") = Ok [] /\
  format_for_tts unicode_lower [] = Ok [].
Proof.
  split; [exact format_for_tts_returns|].
  split. { intros text. eexists. split; [reflexivity|]. apply detect_tone_cases. }
  split; [|split; reflexivity].
  intros text H. split; [now apply strip_blank|].
  unfold format_for_tts. now rewrite (strip_blank text H).
Qed.

(** C10. The string returned by [format_for_tts] has no whitespace
    character (space, tab, newline or any other) immediately before a
    period.  So the newlines of a paragraph break that precede a line
    starting with a period are removed with the rest of the whitespace
    there. *)
Theorem no_whitespace_before_period_in_output (text : str) :
  (exists out, format_for_tts unicode_lower text = Ok out
               /\ no_space_before_period out) /\
  (forall a b, re_sub_space_period (a ++ [10; 10] ++ 46 :: b)
               = re_sub_space_period (a ++ 46 :: b)) /\
  format_for_tts unicode_lower (u "be careful. it is hot. .x")
  = Ok (u "be careful." ++ [10; 10; 10; 10] ++ u "it is hot.."
          ++ [10; 10; 10; 10] ++ u "x").
Proof.
  split; [|split].
  - destruct (format_for_tts_returns text) as [out Hout]. exists out.
    split; [assumption|].
    unfold format_for_tts in Hout.
    destruct (is_empty (strip text)) eqn:Hne.
    + injection Hout as <-. destruct (strip text); [|discriminate].
      intros [|? ?] ? ? E; discriminate.
    + cbv zeta in Hout.
      destruct (shape_lines unicode_lower _ _) as [lines|e]; [|discriminate].
      simpl in Hout. injection Hout as <-. apply normalize_clean.
  - intros a b. now apply re_sub_absorbs.
  - vm_compute. reflexivity.
Qed.

Lemma closing_lift_ending tone last :
  tone_in tone upbeat_tones = true ->
  (ends_with (u "!") (closing_lift tone last)
   \/ ends_with (u "…") (closing_lift tone last)
   \/ ends_with (u "...") (closing_lift tone last)) /\
  (tone_in tone [TONE_HAPPY; TONE_EXCITED] = true ->
   ends_with (u "!") (closing_lift tone last)).
Proof.
  intros H. apply tone_in_In in H. unfold upbeat_tones in H. simpl in H.
  assert (Hbang : endswith (u "!") last = false ->
                  ends_with (u "!") (last ++ u "!")) by (now exists last).
  assert (Hdots : ends_with (u "...") (last ++ u "...")) by (now exists last).
  destruct H as [H|[H|[H|[H|[H|[]]]]]]; subst tone; unfold closing_lift;
    match goal with
    | |- context [tone_in ?t ?l] =>
      let b := eval vm_compute in (tone_in t l) in
      change (tone_in t l) with b; cbv iota
    end;
    try match goal with
    | |- context [tone_in ?t ?l] =>
      let b := eval vm_compute in (tone_in t l) in
      change (tone_in t l) with b; cbv iota
    end;
    cbn [existsb];
    repeat match goal with
           | |- context [endswith ?p last] =>
             let E := fresh "E" in
             destruct (endswith p last) eqn:E;
             [apply endswith_spec in E|]
           end;
    cbn [orb negb]; split; try discriminate; tauto.
Qed.

Lemma soften_upbeat sentences tone :
  tone_in tone upbeat_tones = true ->
  _soften_existing_name sentences tone = sentences
  /\ tone_in tone [TONE_SYMPATHETIC; TONE_BUMMED] = false.
Proof.
  intros H. apply tone_in_In in H. unfold upbeat_tones in H. simpl in H.
  destruct H as [H|[H|[H|[H|[H|[]]]]]]; subst tone; split; reflexivity.
Qed.

Lemma ends_with_not_blank p c s :
  isspace c = false -> ends_with (p ++ [c]) s -> is_empty (strip s) = false.
Proof.
  intros Hc [a ->]. rewrite app_assoc. now apply not_blank_snoc.
Qed.

(** The output ends as its last kept line ends. *)
Lemma format_for_tts_last_line text front last :
  is_empty (strip text) = false ->
  shape_lines unicode_lower (detect_tone unicode_lower (Some (strip text)))
    (_soften_existing_name (_split_sentences (strip text))
       (detect_tone unicode_lower (Some (strip text)))) = Ok (front ++ [last]) ->
  is_empty (strip last) = false ->
  exists x, format_for_tts unicode_lower text = Ok (normalize (x ++ last)).
Proof.
  intros Hne Hl Hlast.
  rewrite (format_for_tts_unfold text _ Hne Hl). unfold kept_lines.
  destruct (drop_leading_blank_keeps_last last Hlast front) as [front' ->].
  rewrite (drop_trailing_blank_keeps_last last Hlast front').
  destruct (join_snoc [10; 10] front' last) as [x Hx].
  exists x. rewrite <- Hx. now destruct front'.
Qed.

Lemma any_in_spec keywords t :
  any_in keywords t = true <-> exists k, In k keywords /\ occurs_in k t.
Proof.
  unfold any_in. rewrite existsb_exists.
  split; intros [k [Hin Hk]]; exists k; split; try assumption;
    now apply contains_spec.
Qed.

Lemma with_pause_spec s :
  (loaded unicode_lower s -> ~ ends_with three_dots s ->
   with_pause unicode_lower s = s ++ three_dots) /\
  (~ loaded unicode_lower s \/ ends_with three_dots s ->
   with_pause unicode_lower s = s).
Proof.
  unfold with_pause, loaded.
  destruct (any_in marker_words (lower unicode_lower s)) eqn:Hm;
    destruct (endswith three_dots s) eqn:He; cbn [andb negb]; split;
    intros H; try reflexivity.
  - intros H'. exfalso. apply H'. now apply endswith_spec.
  - destruct H as [H|H].
    + exfalso. apply H. now apply any_in_spec.
    + apply endswith_spec in H. congruence.
  - apply any_in_spec in H. congruence.
  - apply any_in_spec in H. congruence.
Qed.

Lemma odd_index i : (i mod 2 =? 1)%nat = Nat.odd i.
Proof.
  rewrite <- Nat.bit0_mod, Nat.bit0_odd. now destruct (Nat.odd i).
Qed.

Lemma pause_loop_spec sentences :
  forall i lines,
    pause_loop unicode_lower i sentences lines
    = lines ++ List.concat (map (fun '(i, s) =>
                              if Nat.odd i then [with_pause unicode_lower s; []]
                              else [with_pause unicode_lower s])
                           (combine (seq i (List.length sentences)) sentences)).
Proof.
  induction sentences as [|s later IH]; intros i lines.
  - simpl. now rewrite app_nil_r.
  - cbn [pause_loop List.length seq combine map List.concat].
    rewrite IH, odd_index.
    assert (E : (if any_in marker_words (lower unicode_lower s)
                 then if negb (endswith (u "...") s) then s ++ u "..." else s
                 else s) = with_pause unicode_lower s).
    { unfold with_pause.
      destruct (any_in marker_words (lower unicode_lower s)); [|reflexivity].
      change (u "...") with three_dots.
      now destruct (endswith three_dots s). }
    rewrite E. destruct (Nat.odd i); now rewrite <- !app_assoc.
Qed.

Lemma shape_lines_pause tone sentences :
  tone_in tone [TONE_SYMPATHETIC; TONE_BUMMED] = true ->
  shape_lines unicode_lower tone sentences
  = Ok (pause_lines_spec unicode_lower sentences).
Proof.
  intros H. unfold shape_lines. rewrite H. now rewrite pause_loop_spec.
Qed.

(** *** Softening of a leading name *)

Lemma re_match_name_starts s name sep rest :
  re_match_name s = Some (name, sep, rest) -> starts_with_name s.
Proof.
  unfold re_match_name. destruct s as [|c r]; [discriminate|].
  destruct (is_upper c) eqn:Hc; [|discriminate].
  destruct (span_spec is_lower r) as [Er Hlows].
  destruct (span is_lower r) as [lows r1]. simpl in Er, Hlows.
  destruct ((1 <=? List.length lows)%nat && (List.length lows <=? 20)%nat) eqn:Hn;
    [|discriminate].
  destruct (span_spec is_sep r1) as [Er1 Hsep].
  destruct (span is_sep r1) as [seps r2]. simpl in Er1, Hsep.
  destruct (1 <=? List.length seps)%nat eqn:Hs; [|discriminate].
  intros _. destruct seps as [|d seps]; [discriminate|].
  simpl in Hsep. apply andb_true_iff in Hsep as [Hd _].
  exists c, lows, d, (seps ++ r2). repeat split; try assumption.
  - rewrite Er, Er1. reflexivity.
  - intros ->. discriminate.
Qed.

Lemma soften_first_no_name s : ~ starts_with_name s -> soften_first s = s.
Proof.
  intros H. unfold soften_first.
  destruct (re_match_name s) as [[[name sep] rest]|] eqn:E; [|reflexivity].
  exfalso. apply H. eapply re_match_name_starts. exact E.
Qed.

Lemma soften_loop_later sentences :
  forall idx softened,
    soften_loop (S idx) sentences softened = softened ++ sentences.
Proof.
  induction sentences as [|s later IH]; intros idx softened; simpl.
  - now rewrite app_nil_r.
  - now rewrite IH, <- app_assoc.
Qed.

Lemma _soften_existing_name_first s later tone :
  _soften_existing_name (s :: later) tone
  = (if str_eqb tone TONE_SYMPATHETIC then soften_first s else s) :: later.
Proof.
  unfold _soften_existing_name.
  destruct (str_eqb tone TONE_SYMPATHETIC); [|reflexivity].
  simpl. now rewrite soften_loop_later.
Qed.

Lemma kept_lines_first first others :
  is_empty (strip first) = false ->
  exists others', kept_lines (first :: others) = first :: others'.
Proof.
  intros H. unfold kept_lines, drop_trailing_blank. simpl. rewrite H. simpl.
  destruct (drop_leading_blank_keeps_last first H (rev others)) as [front ->].
  exists (rev front). now rewrite rev_app_distr.
Qed.

Lemma join_first sep first others :
  exists tail, join sep (first :: others) = first ++ tail.
Proof.
  destruct others as [|l ls].
  - exists []. simpl. now rewrite app_nil_r.
  - now exists (sep ++ join sep (l :: ls)).
Qed.

Lemma pause_lines_spec_first s later :
  exists others,
    pause_lines_spec unicode_lower (s :: later)
    = with_pause unicode_lower s :: others.
Proof. unfold pause_lines_spec. simpl. eexists; reflexivity. Qed.

(** The output starts as the first line does, when that line is not
    blank. *)
Lemma format_for_tts_first_line text s later :
  is_empty (strip text) = false ->
  detect_tone unicode_lower (Some (strip text)) = TONE_SYMPATHETIC ->
  _split_sentences (strip text) = s :: later ->
  is_empty (strip (with_pause unicode_lower (soften_first s))) = false ->
  exists tail,
    format_for_tts unicode_lower text
    = Ok (normalize (with_pause unicode_lower (soften_first s) ++ tail)).
Proof.
  intros Hne Htone Hsplit Hnb.
  destruct (pause_lines_spec_first (soften_first s) later) as [others E].
  assert (Hl : shape_lines unicode_lower TONE_SYMPATHETIC
                 (_soften_existing_name (s :: later) TONE_SYMPATHETIC)
               = Ok (with_pause unicode_lower (soften_first s) :: others)).
  { rewrite shape_lines_pause by reflexivity.
    now rewrite _soften_existing_name_first, <- E. }
  rewrite (format_for_tts_unfold text _ Hne)
    by (rewrite Htone, Hsplit; exact Hl).
  destruct (kept_lines_first _ others Hnb) as [others' ->].
  destruct (join_first [10; 10] (with_pause unicode_lower (soften_first s)) others')
    as [tail ->].
  now exists tail.
Qed.

Lemma normalize_john tail :
  normalize (u "John... that sounds really hard..." ++ tail)
  = u "John… that sounds really hard…" ++ normalize tail.
Proof. reflexivity. Qed.

Lemma normalize_john_period tail :
  normalize (u "John... that sounds really hard...." ++ tail)
  = u "John… that sounds really hard…" ++ normalize (46 :: tail).
Proof. reflexivity. Qed.

Lemma soften_first_match s name sep rest :
  re_match_name s = Some (name, sep, rest) ->
  name_shape s name sep rest /\
  soften_first s
  = name ++ u "..." ++ (if is_empty (lstrip rest) then []
                        else u " " ++ lstrip rest).
Proof.
  intros H. split; [now apply re_match_name_sound|].
  unfold soften_first. rewrite H.
  destruct (lstrip rest); simpl; now rewrite <- ?app_assoc.
Qed.

(** C7. With the tone sympathetic, an input whose first sentence is
    [John, that sounds really hard] (with or without its final period) is
    shaped into an output that begins with [John… that sounds really
    hard…]: the pause after the name and the ellipsis of the loaded word
    are both there.  In general a first sentence that matches the name
    pattern becomes the name, three dots and, after a space, what follows
    the separators.  The pass rewrites the first sentence only, leaves the
    later ones as they are, leaves a first sentence that does not start
    with a capitalised word followed by a comma or a space as it is, and
    does nothing for another tone. *)
Theorem name_softening :
  (forall text first later,
      detect_tone unicode_lower (Some (strip text)) = TONE_SYMPATHETIC ->
      _split_sentences (strip text) = first :: later ->
      first = u "John, that sounds really hard"
      \/ first = u "John, that sounds really hard." ->
      exists tail,
        format_for_tts unicode_lower text
        = Ok (u "John… that sounds really hard…" ++ tail)) /\
  format_for_tts unicode_lower (u "John, that sounds really hard")
  = Ok (u "John… that sounds really hard…") /\
  (forall s name sep rest later,
      re_match_name s = Some (name, sep, rest) ->
      name_shape s name sep rest /\
      _soften_existing_name (s :: later) TONE_SYMPATHETIC
      = (name ++ u "..." ++ (if is_empty (lstrip rest) then []
                             else u " " ++ lstrip rest)) :: later) /\
  (forall tone s later,
      exists s', _soften_existing_name (s :: later) tone = s' :: later) /\
  (forall tone s later,
      ~ starts_with_name s ->
      _soften_existing_name (s :: later) tone = s :: later) /\
  (forall tone sentences,
      tone <> TONE_SYMPATHETIC ->
      _soften_existing_name sentences tone = sentences).
Proof.
  split; [|split; [|split; [|split; [|split]]]].
  - intros text first later Htone Hsplit Hfirst.
    assert (Hne : is_empty (strip text) = false).
    { destruct (strip text); [discriminate Htone | reflexivity]. }
    destruct Hfirst as [-> | ->];
      destruct (format_for_tts_first_line text _ later Hne Htone Hsplit eq_refl)
        as [tail Hout]; rewrite Hout.
    + exists (normalize tail). exact (f_equal Ok (normalize_john tail)).
    + exists (normalize (46 :: tail)).
      exact (f_equal Ok (normalize_john_period tail)).
  - reflexivity.
  - intros s name sep rest later H.
    destruct (soften_first_match s name sep rest H) as [Hshape E].
    split; [assumption|].
    rewrite _soften_existing_name_first, E. reflexivity.
  - intros tone s later. rewrite _soften_existing_name_first. eexists; reflexivity.
  - intros tone s later H. rewrite _soften_existing_name_first.
    rewrite (soften_first_no_name s H).
    now destruct (str_eqb tone TONE_SYMPATHETIC).
  - intros tone sentences H. unfold _soften_existing_name.
    destruct (str_eqb tone TONE_SYMPATHETIC) eqn:E; [|reflexivity].
    apply str_eqb_eq in E. contradiction.
Qed.

(** A marker word alone is no sympathetic phrase: as a whole input it has
    the tone neutral and is returned as it is; the three dots come with
    the sympathetic and bummed tones only. *)
Lemma marker_word_alone_is_neutral word :
  In word marker_words ->
  detect_tone unicode_lower (Some word) = TONE_NEUTRAL /\
  format_for_tts unicode_lower word = Ok word.
Proof.
  unfold marker_words. simpl. intros H.
  repeat (destruct H as [H|H]; [subst word; split; reflexivity|]).
  contradiction.
Qed.

End Shaping.

(** ** Segmentation *)

Lemma re_split_head text :
  exists piece pieces, re_split text = piece :: pieces /\ no_delim piece = true.
Proof.
  induction text as [|c r [piece [pieces [E H]]]].
  - now exists [], [].
  - simpl. destruct (is_delim c) eqn:Hc.
    + now exists [], ([c] :: re_split r).
    + rewrite E. exists (c :: piece), pieces. split; [reflexivity|].
      simpl. now rewrite Hc, H.
Qed.

Lemma split_step_delim sentences current c :
  is_delim c = true ->
  split_step (sentences, current) [c]
  = (sentences ++ [strip (current ++ [c])], []).
Proof.
  unfold is_delim. rewrite !orb_true_iff, !N.eqb_eq.
  intros [[->| ->]| ->]; reflexivity.
Qed.

Lemma split_step_plain sentences current part :
  no_delim part = true ->
  split_step (sentences, current) part = (sentences, current ++ part).
Proof.
  intros H. destruct part as [|c part]; [simpl; now rewrite app_nil_r|].
  unfold split_step. cbn [is_empty].
  destruct (contains (c :: part) (u ".?!")) eqn:E.
  - exfalso. apply contains_spec in E as [a [b E]].
    simpl in H. apply andb_true_iff in H as [Hc _].
    destruct a as [|a0 [|a1 [|a2 a]]]; simpl in E; try discriminate;
      injection E as; subst; try discriminate.
    destruct a; discriminate.
  - now destruct current.
Qed.

Lemma split_loop_spec text :
  forall sentences current,
    flushed (fold_left split_step (re_split text) (sentences, current))
    = sentences ++ segments current text.
Proof.
  induction text as [|c r IH]; intros sentences current.
  - unfold flushed. simpl.
    destruct (is_empty (strip current)); simpl; [now rewrite app_nil_r | reflexivity].
  - simpl. destruct (is_delim c) eqn:Hc.
    + cbn [fold_left]. change (split_step (sentences, current) []) with (sentences, current).
      rewrite (split_step_delim _ _ _ Hc), IH. now rewrite <- app_assoc.
    + destruct (re_split_head r) as [piece [pieces [E H]]].
      rewrite <- IH, E. cbn [fold_left].
      rewrite (split_step_plain _ _ piece H), split_step_plain.
      * now rewrite <- app_assoc.
      * unfold no_delim in *. simpl. now rewrite Hc, H.
Qed.

Lemma _split_sentences_flushed text :
  _split_sentences text
  = match flushed (fold_left split_step (re_split text) ([], [])) with
    | [] => [strip text]
    | sentences => sentences
    end.
Proof.
  assert (G : forall st : list str * str,
             (let (sentences, current) := st in
              let sentences :=
                if negb (is_empty (strip current))
                then sentences ++ [strip current] else sentences in
              match sentences with
              | [] => [strip text]
              | _ => sentences
              end)
             = match flushed st with
               | [] => [strip text]
               | sentences => sentences
               end).
  { intros [sentences current]. unfold flushed. simpl.
    now destruct (if negb (is_empty (strip current))
                  then sentences ++ [strip current] else sentences). }
  exact (G (fold_left split_step (re_split text) ([], []))).
Qed.

Lemma _split_sentences_spec text : _split_sentences text = segmentation text.
Proof.
  rewrite _split_sentences_flushed, split_loop_spec. reflexivity.
Qed.

Lemma visible_app a b : visible (a ++ b) = visible a ++ visible b.
Proof. apply filter_app. Qed.

Lemma visible_lstrip s : visible (lstrip s) = visible s.
Proof.
  induction s as [|c s IH]; [reflexivity|]. simpl.
  destruct (isspace c) eqn:Hc; simpl; [assumption | now rewrite Hc].
Qed.

Lemma visible_rev s : visible (rev s) = rev (visible s).
Proof.
  unfold visible. induction s as [|c s IH]; [reflexivity|].
  simpl. rewrite filter_app, IH. simpl.
  destruct (negb (isspace c)); simpl; [reflexivity | now rewrite app_nil_r].
Qed.

Lemma visible_strip s : visible (strip s) = visible s.
Proof.
  unfold strip, rstrip.
  now rewrite visible_rev, visible_lstrip, visible_rev, rev_involutive, visible_lstrip.
Qed.

Lemma visible_blank s : is_empty (strip s) = true -> visible s = [].
Proof.
  intros H. rewrite <- visible_strip. now destruct (strip s).
Qed.

Lemma visible_segments text :
  forall current,
    visible (List.concat (segments current text)) = visible (current ++ text).
Proof.
  induction text as [|c r IH]; intros current.
  - simpl. rewrite app_nil_r. destruct (is_empty (strip current)) eqn:E.
    + now rewrite (visible_blank _ E).
    + simpl. now rewrite app_nil_r, visible_strip.
  - simpl. destruct (is_delim c).
    + simpl. rewrite visible_app, visible_strip, IH.
      now rewrite <- visible_app, <- app_assoc.
    + rewrite IH. now rewrite <- app_assoc.
Qed.

Lemma no_delim_app a b : no_delim (a ++ b) = no_delim a && no_delim b.
Proof. apply forallb_app. Qed.

Lemma no_delim_lstrip s : no_delim s = true -> no_delim (lstrip s) = true.
Proof.
  induction s as [|c s IH]; intros H; [reflexivity|].
  simpl. destruct (isspace c); [|assumption].
  simpl in H. apply andb_true_iff in H as [_ H]. now apply IH.
Qed.

Lemma no_delim_rev s : no_delim (rev s) = no_delim s.
Proof.
  induction s as [|c s IH]; [reflexivity|].
  simpl. rewrite no_delim_app, IH. simpl. rewrite andb_true_r. apply andb_comm.
Qed.

Lemma no_delim_strip s : no_delim s = true -> no_delim (strip s) = true.
Proof.
  intros H. unfold strip, rstrip. rewrite no_delim_rev.
  apply no_delim_lstrip. rewrite no_delim_rev. now apply no_delim_lstrip.
Qed.

Lemma is_delim_not_space c : is_delim c = true -> isspace c = false.
Proof.
  unfold is_delim. rewrite !orb_true_iff, !N.eqb_eq.
  intros [[->| ->]| ->]; reflexivity.
Qed.

Lemma strip_terminated current c :
  no_delim current = true -> is_delim c = true ->
  terminated (strip (current ++ [c])).
Proof.
  intros H Hc. unfold strip.
  assert (E : lstrip (current ++ [c]) = lstrip current ++ [c]).
  { clear H. induction current as [|x cur IH]; simpl.
    - now rewrite (is_delim_not_space c Hc).
    - now destruct (isspace x). }
  rewrite E, (rstrip_snoc _ _ (is_delim_not_space c Hc)).
  exists (lstrip current), c. repeat split; try assumption.
  now apply no_delim_lstrip.
Qed.

Lemma segments_well_cut text :
  forall current, no_delim current = true ->
    segments current text = [] \/ well_cut (segments current text).
Proof.
  induction text as [|c r IH]; intros current H.
  - simpl. destruct (is_empty (strip current)); [now left|].
    right. exists [], (strip current). repeat split; [constructor|].
    right. now apply no_delim_strip.
  - simpl. destruct (is_delim c) eqn:Hc.
    + right. pose proof (strip_terminated current c H Hc) as Ht.
      destruct (IH [] eq_refl) as [-> | [front [last [-> [Hf Hl]]]]].
      * exists [], (strip (current ++ [c])). repeat split; [constructor | now left].
      * exists (strip (current ++ [c]) :: front), last.
        repeat split; [now constructor | assumption].
    + apply IH. rewrite no_delim_app, H. simpl. now rewrite Hc.
Qed.

Lemma segments_none text :
  forall current, segments current text = [] -> no_delim text = true.
Proof.
  induction text as [|c r IH]; intros current H; [reflexivity|].
  simpl in H. destruct (is_delim c) eqn:Hc; [discriminate|].
  simpl. rewrite Hc. now apply (IH (current ++ [c])).
Qed.

(** The sentence that a delimiter ends is what stands before it since the
    last cut, with the delimiter, trimmed; the scan starts afresh after
    it. *)
Lemma segments_at_delimiter body d rest :
  no_delim body = true -> is_delim d = true ->
  forall current,
    segments current (body ++ d :: rest)
    = strip (current ++ body ++ [d]) :: segments [] rest.
Proof.
  intros Hb Hd. induction body as [|x body IH]; intros current.
  - simpl. now rewrite Hd.
  - simpl in Hb. apply andb_true_iff in Hb as [Hx Hb].
    apply negb_true_iff in Hx. simpl. rewrite Hx, (IH Hb).
    now rewrite <- app_assoc.
Qed.

(** With no delimiter left, what remains is one last sentence, unless it
    is blank. *)
Lemma segments_fragment fragment :
  no_delim fragment = true ->
  forall current,
    segments current fragment
    = if is_empty (strip (current ++ fragment)) then []
      else [strip (current ++ fragment)].
Proof.
  induction fragment as [|x fragment IH]; intros H current.
  - simpl. now rewrite app_nil_r.
  - simpl in H. apply andb_true_iff in H as [Hx H].
    apply negb_true_iff in Hx. simpl. rewrite Hx, (IH H).
    now rewrite <- app_assoc.
Qed.

(** The delimiters are the period, the question mark and the exclamation
    mark, and no other character. *)
Lemma is_delim_spec c : is_delim c = true <-> In c (u ".?!").
Proof.
  unfold is_delim. rewrite !orb_true_iff, !N.eqb_eq.
  change (u ".?!") with [46; 63; 33]. simpl.
  split.
  - intros [[->| ->]| ->]; tauto.
  - intros [<-|[<-|[<-|[]]]]; tauto.
Qed.

Lemma no_delim_spec s :
  no_delim s = true <-> Forall (fun c => ~ In c (u ".?!")) s.
Proof.
  unfold no_delim. rewrite forallb_forall, Forall_forall.
  split; intros H c Hc.
  - intros Hd. apply is_delim_spec in Hd. specialize (H c Hc).
    rewrite Hd in H. discriminate.
  - destruct (is_delim c) eqn:E; [|reflexivity].
    exfalso. apply (H c Hc). now apply is_delim_spec.
Qed.

Lemma no_delim_blank s : is_empty (strip s) = true -> no_delim s = true.
Proof.
  intros H. apply visible_blank in H.
  induction s as [|c s IH]; [reflexivity|].
  simpl in H. simpl. destruct (is_delim c) eqn:Hd.
  - rewrite (is_delim_not_space c Hd) in H. discriminate.
  - destruct (negb (isspace c)); [discriminate | now apply IH].
Qed.

(** What the scan makes of the text after a cut: nothing when it is blank,
    and its sentences otherwise. *)
Lemma segments_rest rest :
  segments [] rest
  = if is_empty (strip rest) then [] else _split_sentences rest.
Proof.
  rewrite _split_sentences_spec. unfold segmentation.
  destruct (is_empty (strip rest)) eqn:Hb.
  - rewrite (segments_fragment rest (no_delim_blank rest Hb) []).
    simpl app. now rewrite Hb.
  - destruct (segments [] rest) as [|s l] eqn:E; [|reflexivity].
    pose proof (segments_none rest [] E) as Hn.
    rewrite (segments_fragment rest Hn []) in E. simpl app in E.
    rewrite Hb in E. discriminate.
Qed.

Lemma _split_sentences_cut body d rest :
  In d (u ".?!") -> Forall (fun c => ~ In c (u ".?!")) body ->
  _split_sentences (body ++ d :: rest)
  = strip (body ++ [d])
    :: (if is_empty (strip rest) then [] else _split_sentences rest).
Proof.
  intros Hd Hb. apply is_delim_spec in Hd. apply no_delim_spec in Hb.
  rewrite <- segments_rest, _split_sentences_spec. unfold segmentation.
  now rewrite (segments_at_delimiter body d rest Hb Hd []).
Qed.

Lemma _split_sentences_uncut text :
  Forall (fun c => ~ In c (u ".?!")) text -> _split_sentences text = [strip text].
Proof.
  intros H. apply no_delim_spec in H.
  rewrite _split_sentences_spec. unfold segmentation.
  rewrite (segments_fragment text H []). simpl app.
  now destruct (is_empty (strip text)).
Qed.

Lemma _split_sentences_well_cut text : well_cut (_split_sentences text).
Proof.
  rewrite _split_sentences_spec. unfold segmentation.
  destruct (segments [] text) as [|s l] eqn:E.
  - exists [], (strip text). repeat split; [constructor|].
    right. apply no_delim_strip. now apply (segments_none text []).
  - destruct (segments_well_cut text [] eq_refl) as [F|F]; rewrite E in F;
      [discriminate | assumption].
Qed.

(** C8. The delimiters of [_split_sentences] are the period, the question
    mark and the exclamation mark.  The text is cut after each of them,
    the delimiter staying at the end of the sentence it ends: a text made
    of a body without delimiter, a delimiter and a rest gives the body
    with its delimiter, trimmed, as first sentence, followed by the
    sentences of the rest when the rest is not blank.  A text with no
    delimiter is one sentence, the trimmed text; so what is left after the
    last delimiter is a last sentence, and when nothing comes out the
    result is the trimmed text alone.  The sentences come in the order of
    the text: set end to end they hold the characters of the text in
    their order, whitespace apart. *)
Theorem segmentation_keeps_delimiters_and_order (text : str) :
  (forall c, is_delim c = true <-> In c (u ".?!")) /\
  (forall body d rest,
      In d (u ".?!") -> Forall (fun c => ~ In c (u ".?!")) body ->
      _split_sentences (body ++ d :: rest)
      = strip (body ++ [d])
        :: (if is_empty (strip rest) then [] else _split_sentences rest)) /\
  (Forall (fun c => ~ In c (u ".?!")) text ->
   _split_sentences text = [strip text]) /\
  _split_sentences text = segmentation text /\
  (forall body d rest,
      no_delim body = true -> is_delim d = true ->
      segments [] (body ++ d :: rest)
      = strip (body ++ [d]) :: segments [] rest) /\
  (forall fragment,
      no_delim fragment = true -> is_empty (strip fragment) = false ->
      segments [] fragment = [strip fragment]) /\
  well_cut (_split_sentences text) /\
  (segments [] text = [] -> _split_sentences text = [strip text]) /\
  visible (List.concat (_split_sentences text)) = visible text.
Proof.
  split; [exact is_delim_spec|].
  split; [exact _split_sentences_cut|].
  split; [exact (_split_sentences_uncut text)|].
  split; [apply _split_sentences_spec|].
  split. { intros body d rest Hb Hd. apply (segments_at_delimiter body d rest Hb Hd []). }
  split. { intros fragment Hf Hne. rewrite (segments_fragment fragment Hf []).
           simpl app. now rewrite Hne. }
  split; [apply _split_sentences_well_cut|].
  rewrite _split_sentences_spec. unfold segmentation.
  destruct (segments [] text) as [|s l] eqn:E.
  - split; [reflexivity|].
    simpl. now rewrite app_nil_r, visible_strip.
  - split; [discriminate|].
    rewrite <- E. apply (visible_segments text []).
Qed.

(** * The properties on concrete inputs *)

Example detect_tone_playful :
  detect_tone no_unicode_case (Some (u "haha that's hilarious, just kidding"))
  = TONE_PLAYFUL.
Proof. reflexivity. Qed.

Example detect_tone_happy :
  detect_tone no_unicode_case (Some (u "Congratulations, that's fantastic!"))
  = TONE_HAPPY.
Proof. reflexivity. Qed.

(** The example of the specification: a sympathetic phrase beside a happy
    one. *)
Lemma sympathetic_shadows_happy_example :
  any_in happy_keywords
    (lower no_unicode_case (u "I'm sorry, that's great news")) = true /\
  detect_tone no_unicode_case (Some (u "I'm sorry, that's great news"))
  = TONE_SYMPATHETIC.
Proof.
  split; [reflexivity|].
  apply (sympathetic_shadows_later_groups no_unicode_case
           (u "I'm sorry, that's great news") (u "i'm sorry")).
  - left. reflexivity.
  - right. exists [], (u ", that's great news"). reflexivity.
Defined.

Lemma no_keyword_is_neutral_example :
  detect_tone no_unicode_case (Some (u "Good morning.")) = TONE_NEUTRAL.
Proof.
  destruct (detect_tone_total_on_ten_labels no_unicode_case)
    as (_ & _ & _ & _ & _ & _ & H).
  apply H. intros group Hin. simpl in Hin.
  repeat (destruct Hin as [Hin|Hin]; [subst group; reflexivity|]).
  contradiction.
Defined.

Lemma blank_input_example :
  strip (u "   ") = [] /\
  format_for_tts no_unicode_case (u "   ") = Ok (strip (u "   ")).
Proof.
  destruct (operations_never_raise no_unicode_case) as (_ & _ & H & _).
  apply H. reflexivity.
Defined.


Lemma name_softening_example :
  exists tail,
    format_for_tts no_unicode_case (u "  John, that sounds really hard ")
    = Ok (u "John… that sounds really hard…" ++ tail).
Proof.
  exact (proj1 (name_softening no_unicode_case)
           (u "  John, that sounds really hard ")
           (u "John, that sounds really hard") [] eq_refl eq_refl
           (or_introl eq_refl)).
Defined.

Example name_softening_two_sentences :
  format_for_tts no_unicode_case (u "John, that sounds really hard. I am here.")
  = Ok (u "John… that sounds really hard…." ++ [10; 10] ++ u "I am here.").
Proof. reflexivity. Qed.

(** A text with the three delimiters: the first cut is after the period,
    and the rest is cut in the same way. *)
Lemma segmentation_example :
  _split_sentences (u "Hi there.  How are you?Fine!  and you")
  = [u "Hi there."; u "How are you?"; u "Fine!"; u "and you"].
Proof.
  destruct (segmentation_keeps_delimiters_and_order (u "and you"))
    as (_ & Hcut & _).
  assert (Hd : In 46 (u ".?!")) by (left; reflexivity).
  assert (Hb : Forall (fun c => ~ In c (u ".?!")) (u "Hi there")).
  { apply no_delim_spec. reflexivity. }
  pose proof (Hcut (u "Hi there") 46 (u "  How are you?Fine!  and you") Hd Hb)
    as H.
  vm_compute in H. vm_compute. exact H.
Defined.

Example segmentation_fallback :
  _split_sentences (u "   ") = [strip (u "   ")].
Proof. reflexivity. Qed.

(** C9 does not hold for every string: on a period, a space and two
    periods, normalising once gives three dots and twice gives the glyph;
    and [format_for_tts] does return such a string. *)
Lemma normalize_twice_differs :
  normalize (u ". ..") = u "..." /\
  normalize (normalize (u ". ..")) = u "…" /\
  str_eqb (normalize (normalize (u ". .."))) (normalize (u ". ..")) = false /\
  format_for_tts no_unicode_case (u ". ..") = Ok (u "...").
Proof. repeat split. Qed.

Lemma normalize_idempotent_example :
  normalize (normalize (u "wait ... that is it .  ok...."))
  = normalize (u "wait ... that is it .  ok....").
Proof.
  apply (proj2 (proj1 (normalize_idempotent_iff (u "wait ... that is it .  ok....")))).
  reflexivity.
Defined.

(** * Further properties of the core *)

(** ** Trimming *)

Lemma lstrip_head s :
  lstrip s = [] \/ exists c r, lstrip s = c :: r /\ isspace c = false.
Proof.
  induction s as [|c s IH]; [now left|].
  simpl. destruct (isspace c) eqn:Hc; [assumption|].
  right. now exists c, s.
Qed.

Lemma lstrip_nil s : lstrip s = [] -> forallb isspace s = true.
Proof.
  induction s as [|c s IH]; [reflexivity|].
  simpl. destruct (isspace c); [assumption | discriminate].
Qed.

Lemma lstrip_fixed c r : isspace c = false -> lstrip (c :: r) = c :: r.
Proof. intros H. simpl. now rewrite H. Qed.

Lemma rstrip_head c r :
  isspace c = false -> exists r', rstrip (c :: r) = c :: r'.
Proof.
  intros Hc. unfold rstrip. simpl.
  destruct (lstrip_snoc (rev r) c Hc) as [a ->].
  exists (rev a). now rewrite rev_app_distr.
Qed.

Lemma rstrip_last s :
  rstrip s = [] \/ exists a d, rstrip s = a ++ [d] /\ isspace d = false.
Proof.
  unfold rstrip. destruct (lstrip_head (rev s)) as [->|(c & r & -> & Hc)].
  - now left.
  - right. exists (rev r), c. now split.
Qed.

Lemma strip_idempotent s : strip (strip s) = strip s.
Proof.
  unfold strip at 2 3.
  destruct (lstrip_head s) as [->|(c & r & -> & Hc)]; [reflexivity|].
  destruct (rstrip_head c r Hc) as [r' E].
  destruct (rstrip_last (c :: r)) as [F|(a & d & F & Hd)].
  - rewrite E in F. discriminate.
  - unfold strip. rewrite E, (lstrip_fixed c r' Hc), <- E, F.
    now apply rstrip_snoc.
Qed.

Lemma strip_nil_blank s : strip s = [] -> forallb isspace s = true.
Proof.
  unfold strip. intros H.
  destruct (lstrip_head s) as [E|(c & r & E & Hc)]; [now apply lstrip_nil|].
  rewrite E in H. destruct (rstrip_head c r Hc) as [r' F].
  rewrite F in H. discriminate.
Qed.

Lemma forallb_rev (p : N -> bool) s : forallb p (rev s) = forallb p s.
Proof.
  induction s as [|c s IH]; [reflexivity|].
  simpl. rewrite forallb_app, IH. simpl. rewrite andb_true_r. apply andb_comm.
Qed.

Lemma lstrip_pad a s : forallb isspace a = true -> lstrip (a ++ s) = lstrip s.
Proof.
  induction a as [|c a IH]; intros H; [reflexivity|].
  simpl in H. apply andb_true_iff in H as [Hc Ha].
  simpl. rewrite Hc. now apply IH.
Qed.

Lemma rstrip_pad s b : forallb isspace b = true -> rstrip (s ++ b) = rstrip s.
Proof.
  intros H. unfold rstrip. rewrite rev_app_distr, lstrip_pad; [reflexivity|].
  now rewrite forallb_rev.
Qed.

Lemma lstrip_app s b :
  lstrip (s ++ b) = match lstrip s with [] => lstrip b | _ => lstrip s ++ b end.
Proof.
  induction s as [|c s IH]; [reflexivity|].
  simpl. destruct (isspace c); [assumption | reflexivity].
Qed.

(** Whitespace around a text does not count. *)
Lemma strip_pad a s b :
  forallb isspace a = true -> forallb isspace b = true ->
  strip (a ++ s ++ b) = strip s.
Proof.
  intros Ha Hb. unfold strip. rewrite (lstrip_pad a _ Ha), lstrip_app.
  destruct (lstrip s) as [|c r] eqn:E.
  - now rewrite (lstrip_blank b Hb).
  - now apply rstrip_pad.
Qed.

Lemma visible_nil_blank s : visible s = [] -> forallb isspace s = true.
Proof.
  induction s as [|c s IH]; [reflexivity|].
  simpl. destruct (isspace c); simpl; [assumption | discriminate].
Qed.

Lemma visible_of_not_blank s : strip s <> [] -> visible s <> [].
Proof.
  intros H E. apply H, strip_blank. now apply visible_nil_blank.
Qed.

(** ** The sentences of [_split_sentences] *)

Lemma segments_trimmed text :
  forall current,
    Forall (fun s => strip s = s /\ s <> []) (segments current text).
Proof.
  induction text as [|c r IH]; intros current; simpl.
  - destruct (strip current) eqn:E; simpl; constructor; [|constructor].
    rewrite <- E. split; [apply strip_idempotent | rewrite E; discriminate].
  - destruct (is_delim c) eqn:Hc; [|apply IH].
    constructor; [|apply IH]. split; [apply strip_idempotent|].
    pose proof (not_blank_snoc current c (is_delim_not_space c Hc)) as H.
    intros E. rewrite E in H. discriminate.
Qed.

Lemma blank_has_no_delim s : forallb isspace s = true -> no_delim s = true.
Proof.
  induction s as [|c s IH]; intros H; [reflexivity|].
  simpl in H. apply andb_true_iff in H as [Hc Hs].
  simpl. rewrite (IH Hs), andb_true_r.
  destruct (is_delim c) eqn:E; [|reflexivity].
  apply is_delim_not_space in E. congruence.
Qed.

Lemma visible_split_sentences text :
  visible (List.concat (_split_sentences text)) = visible text.
Proof.
  rewrite _split_sentences_spec. unfold segmentation.
  destruct (segments [] text) as [|s l] eqn:E.
  - simpl. now rewrite app_nil_r, visible_strip.
  - rewrite <- E. apply (visible_segments text []).
Qed.

(** X1. Every sentence that [_split_sentences] returns is trimmed (it has no
    whitespace at either end); for a text that is not blank none of them
    is empty, and a blank text gives the one empty sentence. *)
Theorem sentences_are_trimmed (text : str) :
  Forall (fun s => strip s = s) (_split_sentences text) /\
  (strip text <> [] -> Forall (fun s => s <> []) (_split_sentences text)) /\
  (strip text = [] -> _split_sentences text = [[]]).
Proof.
  rewrite _split_sentences_spec. unfold segmentation.
  pose proof (segments_trimmed text []) as H.
  destruct (segments [] text) as [|s l] eqn:E.
  - split; [|split].
    + constructor; [apply strip_idempotent | constructor].
    + intros Hne. constructor; [assumption | constructor].
    + now intros ->.
  - split; [|split].
    + eapply Forall_impl; [|exact H]. now intros a [Ha _].
    + intros _. eapply Forall_impl; [|exact H]. now intros a [_ Ha].
    + intros Hb. exfalso.
      pose proof (blank_has_no_delim text (strip_nil_blank text Hb)) as Hd.
      rewrite (segments_fragment text Hd []) in E. simpl app in E.
      rewrite Hb in E. discriminate.
Qed.

(** ** The order of the keyword groups *)

Lemma detect_tone_first_match unicode_lower text :
  detect_tone unicode_lower (Some text)
  = first_match (lower unicode_lower text).
Proof.
  unfold detect_tone, first_match, keyword_groups.
  destruct text as [|c text]; [reflexivity|].
  cbn [is_empty find snd fst].
  repeat match goal with
         | |- context [any_in ?k ?t] => destruct (any_in k t)
         end; reflexivity.
Qed.

Lemma find_first {A : Type} (f : A -> bool) pre x post :
  (forall y, In y pre -> f y = false) -> f x = true ->
  find f (pre ++ x :: post) = Some x.
Proof.
  intros Hpre Hx. induction pre as [|y pre IH]; simpl.
  - now rewrite Hx.
  - rewrite (Hpre y (or_introl eq_refl)). apply IH.
    intros z Hz. apply Hpre. now right.
Qed.

(** X2. The keyword groups are tried in their order, and the first one that
    has a phrase in the lowercase text gives the tone: a group decides
    whenever no group before it matches, whatever the groups after it
    hold. *)
Theorem first_matching_group_decides unicode_lower
        (text : str) (before after : list (str * list str))
        (tone : str) (keywords : list str) :
  keyword_groups = before ++ (tone, keywords) :: after ->
  (forall group, In group before ->
     any_in (snd group) (lower unicode_lower text) = false) ->
  any_in keywords (lower unicode_lower text) = true ->
  detect_tone unicode_lower (Some text) = tone.
Proof.
  intros Hgroups Hbefore Hhere.
  rewrite detect_tone_first_match. unfold first_match. rewrite Hgroups.
  now rewrite (find_first _ before (tone, keywords) after Hbefore Hhere).
Qed.

Lemma lower_from_ascii unicode_lower s :
  is_ascii s = true ->
  forall before, lower_from unicode_lower before s = map ascii_lower s.
Proof.
  induction s as [|c s IH]; intros H before; [reflexivity|].
  simpl in H. apply andb_true_iff in H as [Hc Hs].
  simpl. unfold lower_char. rewrite Hc. simpl. now rewrite IH.
Qed.

(** X3. Tone detection ignores the case of ASCII letters: two ASCII texts
    that differ in case only get the same tone, and the case table for the
    other code points has no part in it. *)
Theorem detect_tone_ignores_ascii_case unicode_lower unicode_lower'
        (text text' : str) :
  is_ascii text = true -> is_ascii text' = true ->
  map ascii_lower text = map ascii_lower text' ->
  detect_tone unicode_lower (Some text) = detect_tone unicode_lower' (Some text').
Proof.
  intros H H' E. rewrite !detect_tone_first_match. unfold lower.
  now rewrite (lower_from_ascii _ text H), (lower_from_ascii _ text' H'), E.
Qed.

(** ** Softening once is enough *)

(** After the pause the name is followed by a dot, which is no separator:
    the pattern does not match a second time. *)
Lemma re_match_name_after_pause c lows tail :
  forallb is_lower lows = true ->
  re_match_name (c :: lows ++ 46 :: tail) = None.
Proof.
  intros Hlows. unfold re_match_name.
  destruct (is_upper c); [|reflexivity].
  rewrite (span_maximal is_lower lows (46 :: tail) Hlows)
    by (right; now exists 46, tail).
  destruct ((1 <=? List.length lows)%nat && (List.length lows <=? 20)%nat);
    reflexivity.
Qed.

Lemma soften_first_idempotent s : soften_first (soften_first s) = soften_first s.
Proof.
  unfold soften_first at 2 3.
  destruct (re_match_name s) as [[[name sep] rest]|] eqn:E.
  - apply re_match_name_sound in E
      as (c & lows & tail & _ & -> & _ & Hlows & _).
    unfold soften_first.
    destruct (is_empty (lstrip rest)); cbn [negb app];
      change (u "... ") with (46 :: 46 :: 46 :: 32 :: []);
      change (u "...") with (46 :: 46 :: 46 :: []); cbn [app];
      now rewrite (re_match_name_after_pause c lows _ Hlows).
  - unfold soften_first. now rewrite E.
Qed.

Lemma soften_length sentences tone :
  List.length (_soften_existing_name sentences tone) = List.length sentences.
Proof.
  destruct sentences as [|s later]; [|now rewrite _soften_existing_name_first].
  unfold _soften_existing_name. now destruct (str_eqb tone TONE_SYMPATHETIC).
Qed.

(** X4. [_soften_existing_name] is idempotent and keeps the number of
    sentences: once the pause stands after the name, running the pass
    again changes nothing, for any tone. *)
Theorem softening_is_idempotent (sentences : list str) (tone : str) :
  _soften_existing_name (_soften_existing_name sentences tone) tone
  = _soften_existing_name sentences tone /\
  List.length (_soften_existing_name sentences tone) = List.length sentences.
Proof.
  split; [|apply soften_length].
  destruct sentences as [|s later].
  - unfold _soften_existing_name. now destruct (str_eqb tone TONE_SYMPATHETIC).
  - rewrite !_soften_existing_name_first.
    destruct (str_eqb tone TONE_SYMPATHETIC); [|reflexivity].
    now rewrite soften_first_idempotent.
Qed.

(** ** Joining and regrouping *)

Lemma join_cons sep x l :
  l <> [] -> join sep (x :: l) = x ++ sep ++ join sep l.
Proof. destruct l; [contradiction | reflexivity]. Qed.

Lemma join_app sep a b :
  a <> [] -> b <> [] ->
  join sep (a ++ b) = join sep a ++ sep ++ join sep b.
Proof.
  intros Ha Hb. induction a as [|x a IH]; [contradiction|].
  destruct a as [|y a].
  - simpl app. now rewrite join_cons.
  - change ((x :: y :: a) ++ b) with (x :: (y :: a) ++ b).
    rewrite join_cons by discriminate. rewrite IH by discriminate.
    rewrite (join_cons sep x (y :: a)) by discriminate.
    now rewrite <- !app_assoc.
Qed.

Lemma visible_space sep : forallb isspace sep = true -> visible sep = [].
Proof.
  induction sep as [|c sep IH]; intros H; [reflexivity|].
  simpl in H. apply andb_true_iff in H as [Hc Hs].
  simpl. rewrite Hc. simpl. now apply IH.
Qed.

Lemma visible_join sep l :
  forallb isspace sep = true -> visible (join sep l) = visible (List.concat l).
Proof.
  intros H. induction l as [|x l IH]; [reflexivity|].
  destruct l as [|y l]; [simpl; now rewrite app_nil_r|].
  rewrite join_cons by discriminate.
  change (List.concat (x :: y :: l)) with (x ++ List.concat (y :: l)).
  now rewrite !visible_app, (visible_space sep H), IH.
Qed.

Lemma visible_concat_app a b :
  visible (List.concat (a ++ b))
  = visible (List.concat a) ++ visible (List.concat b).
Proof. now rewrite concat_app, visible_app. Qed.

Lemma join_merge sep front a b :
  join sep (front ++ [a; b]) = join sep (front ++ [a ++ sep ++ b]).
Proof.
  destruct front as [|x front]; [reflexivity|].
  rewrite !(join_app sep (x :: front)) by discriminate. reflexivity.
Qed.

Lemma last_line_of_some buffer :
  buffer <> [] -> last_line buffer = [join (u " ") buffer].
Proof. destruct buffer; [contradiction | reflexivity]. Qed.

(** The loop of [buffered_lines] only regroups: the lines made so far and
    the line still in the buffer, joined by spaces, are the sentences
    joined by spaces. *)
Lemma buffer_loop_regroups limit sentences :
  forall buffer lines,
    join (u " ")
      (fst (buffer_loop limit sentences buffer lines)
       ++ last_line (snd (buffer_loop limit sentences buffer lines)))
    = join (u " ") (lines ++ last_line (buffer ++ sentences)).
Proof.
  induction sentences as [|s later IH]; intros buffer lines.
  - simpl. now rewrite app_nil_r.
  - assert (Hb : buffer ++ [s] <> []) by now destruct buffer.
    assert (E : buffer ++ s :: later = (buffer ++ [s]) ++ later)
      by now rewrite <- app_assoc.
    cbn [buffer_loop].
    destruct (limit <? List.length (join (u " ") (buffer ++ [s])))%nat.
    + rewrite IH, E. simpl app at 2.
      destruct later as [|t later].
      * rewrite !app_nil_r. now rewrite (last_line_of_some _ Hb).
      * rewrite !last_line_of_some by (try discriminate; now destruct buffer).
        rewrite (join_app _ (buffer ++ [s]) (t :: later) Hb) by discriminate.
        rewrite <- app_assoc. apply join_merge.
    + now rewrite IH, E.
Qed.

Lemma buffered_lines_regroup limit sentences :
  join (u " ") (buffered_lines limit sentences) = join (u " ") sentences.
Proof.
  pose proof (buffer_loop_regroups limit sentences [] []) as H.
  unfold buffered_lines.
  destruct (buffer_loop limit sentences [] []) as [lines buffer].
  cbn [fst snd app] in H.
  assert (E : join (u " ") (last_line sentences) = join (u " ") sentences)
    by now destruct sentences.
  rewrite <- E, <- H. unfold last_line.
  destruct buffer; [now rewrite app_nil_r | reflexivity].
Qed.

Lemma buffer_loop_long limit sentences :
  forall buffer lines,
    Forall (fun line => (limit < List.length line)%nat) lines ->
    Forall (fun line => (limit < List.length line)%nat)
           (fst (buffer_loop limit sentences buffer lines)).
Proof.
  induction sentences as [|s later IH]; intros buffer lines H; [exact H|].
  cbn [buffer_loop].
  destruct (limit <? List.length (join (u " ") (buffer ++ [s])))%nat eqn:E.
  - apply IH. apply Forall_app. split; [assumption|].
    constructor; [|constructor]. now apply Nat.ltb_lt.
  - now apply IH.
Qed.

Lemma buffered_lines_unfold limit sentences :
  buffered_lines limit sentences
  = fst (buffer_loop limit sentences [] [])
    ++ last_line (snd (buffer_loop limit sentences [] [])).
Proof.
  unfold buffered_lines, last_line.
  destruct (buffer_loop limit sentences [] []) as [lines buffer].
  destruct buffer; [now rewrite app_nil_r | reflexivity].
Qed.

Lemma join_prefix_length sep a b :
  (List.length (join sep a) <= List.length (join sep (a ++ b)))%nat.
Proof.
  destruct a as [|x a]; [simpl; lia|].
  destruct b as [|y b]; [now rewrite app_nil_r|].
  rewrite join_app by discriminate. rewrite !length_app. lia.
Qed.

(** While the whole stays within the limit nothing is flushed. *)
Lemma buffer_loop_short limit sentences :
  forall buffer lines,
    (List.length (join (u " ") (buffer ++ sentences)) <= limit)%nat ->
    buffer_loop limit sentences buffer lines = (lines, buffer ++ sentences).
Proof.
  induction sentences as [|s later IH]; intros buffer lines H.
  - simpl. now rewrite app_nil_r.
  - assert (E : buffer ++ s :: later = (buffer ++ [s]) ++ later)
      by now rewrite <- app_assoc.
    cbn [buffer_loop]. rewrite E in H.
    pose proof (join_prefix_length (u " ") (buffer ++ [s]) later) as Hp.
    destruct (Nat.ltb_spec limit (List.length (join (u " ") (buffer ++ [s]))))
      as [Hlt|_]; [lia|].
    rewrite IH by assumption. now rewrite E.
Qed.

Lemma buffered_lines_short limit sentences :
  sentences <> [] ->
  (List.length (join (u " ") sentences) <= limit)%nat ->
  buffered_lines limit sentences = [join (u " ") sentences].
Proof.
  intros Hne H. rewrite buffered_lines_unfold.
  rewrite (buffer_loop_short limit sentences [] [] H). simpl.
  now apply last_line_of_some.
Qed.

(** X5. The buffering of the upbeat and neutral branches only regroups the
    sentences: the lines joined by single spaces are the sentences joined
    by single spaces, whatever the limit; every line but the last is
    longer than the limit; and sentences that fit the limit together make
    one line. *)
Theorem buffering_only_regroups (limit : nat) (sentences : list str) :
  join (u " ") (buffered_lines limit sentences) = join (u " ") sentences /\
  (forall front last,
      buffered_lines limit sentences = front ++ [last] ->
      Forall (fun line => (limit < List.length line)%nat) front) /\
  (sentences <> [] ->
   (List.length (join (u " ") sentences) <= limit)%nat ->
   buffered_lines limit sentences = [join (u " ") sentences]).
Proof.
  split; [apply buffered_lines_regroup|]. split; [|apply buffered_lines_short].
  intros front last E. rewrite buffered_lines_unfold in E.
  match type of E with
  | ?flushed ++ last_line ?buffer = _ =>
    assert (H : Forall (fun line => (limit < List.length line)%nat) flushed)
      by exact (buffer_loop_long limit sentences [] [] (Forall_nil _));
    destruct buffer as [|b bs]
  end.
  - cbn [last_line] in E. rewrite app_nil_r in E. rewrite E in H.
    now apply Forall_app in H as [H _].
  - cbn [last_line] in E. apply app_inj_tail in E as [<- _]. exact H.
Qed.

(** ** What shaping keeps of the text *)

Lemma visible_re_sub s : visible (re_sub_space_period s) = visible s.
Proof.
  induction s as [|c s IH]; [reflexivity|].
  simpl. destruct (isspace c) eqn:Hc; simpl.
  - destruct (period_after_spaces s); simpl; [assumption|].
    now rewrite Hc.
  - now rewrite Hc, IH.
Qed.

Lemma visible_replace_dots (s : str) :
  visible s <> [] -> visible (replace_dots s) <> [].
Proof.
  induction s as [|r IH|c r E IH] using replace_dots_ind; intros H.
  - exact H.
  - rewrite replace_dots_hit. discriminate.
  - rewrite replace_dots_miss by assumption. simpl in *.
    destruct (negb (isspace c)); [discriminate | now apply IH].
Qed.

Lemma normalize_not_empty s : visible s <> [] -> normalize s <> [].
Proof.
  intros H E. apply (visible_replace_dots s H).
  rewrite <- visible_re_sub, <- normalize_unfold, E. reflexivity.
Qed.

Lemma visible_not_blank s : visible s <> [] -> is_empty (strip s) = false.
Proof.
  intros H. destruct (is_empty (strip s)) eqn:E; [|reflexivity].
  now apply visible_blank in E.
Qed.

Lemma not_blank_visible s : is_empty (strip s) = false -> visible s <> [].
Proof.
  intros H. apply visible_of_not_blank. intros E. now rewrite E in H.
Qed.

Lemma visible_concat_blank lines :
  Forall (fun line => is_empty (strip line) = true) lines ->
  visible (List.concat lines) = [].
Proof.
  induction 1 as [|x l Hx _ IH]; [reflexivity|].
  simpl. now rewrite visible_app, (visible_blank x Hx), IH.
Qed.

Lemma drop_leading_blank_split lines :
  exists blanks,
    lines = blanks ++ drop_leading_blank lines /\
    Forall (fun line => is_empty (strip line) = true) blanks.
Proof.
  induction lines as [|x l (blanks & E & H)]; [now exists []|].
  simpl. destruct (is_empty (strip x)) eqn:Hx.
  - exists (x :: blanks). split; [simpl; now f_equal | now constructor].
  - now exists [].
Qed.

Lemma drop_trailing_blank_split lines :
  exists blanks,
    lines = drop_trailing_blank lines ++ blanks /\
    Forall (fun line => is_empty (strip line) = true) blanks.
Proof.
  unfold drop_trailing_blank.
  destruct (drop_leading_blank_split (rev lines)) as (blanks & E & H).
  exists (rev blanks). split.
  - rewrite <- rev_app_distr, <- E. now rewrite rev_involutive.
  - now apply Forall_rev.
Qed.

Lemma visible_kept_lines lines :
  visible (List.concat (kept_lines lines)) = visible (List.concat lines).
Proof.
  unfold kept_lines.
  destruct (drop_leading_blank_split lines) as (b1 & E1 & H1).
  destruct (drop_trailing_blank_split (drop_leading_blank lines))
    as (b2 & E2 & H2).
  rewrite E1 at 2. rewrite E2 at 2.
  rewrite !visible_concat_app, (visible_concat_blank b1 H1),
    (visible_concat_blank b2 H2).
  now rewrite app_nil_r.
Qed.

Lemma drop_leading_blank_head lines :
  drop_leading_blank lines = []
  \/ exists x l, drop_leading_blank lines = x :: l
                 /\ is_empty (strip x) = false.
Proof.
  induction lines as [|x l IH]; [now left|].
  simpl. destruct (is_empty (strip x)) eqn:Hx; [assumption|].
  right. now exists x, l.
Qed.

Lemma kept_lines_head lines :
  kept_lines lines = []
  \/ exists x l, kept_lines lines = x :: l /\ is_empty (strip x) = false.
Proof.
  unfold kept_lines.
  destruct (drop_leading_blank_head lines) as [->|(x & l & -> & Hx)];
    [now left|].
  right. unfold drop_trailing_blank.
  change (rev (x :: l)) with (rev l ++ [x]).
  destruct (drop_leading_blank_keeps_last x Hx (rev l)) as [front ->].
  exists x, (rev front). now rewrite rev_app_distr.
Qed.

Section Keeping.

Variable unicode_lower : str -> N -> str -> str.

(** The string that [format_for_tts] normalises last: it shows what the
    assembled lines show, or what the text shows when no line is kept; it
    always shows something. *)
Lemma format_for_tts_before_normalize text lines :
  is_empty (strip text) = false ->
  shape_lines unicode_lower (detect_tone unicode_lower (Some (strip text)))
    (_soften_existing_name (_split_sentences (strip text))
       (detect_tone unicode_lower (Some (strip text)))) = Ok lines ->
  exists pre,
    format_for_tts unicode_lower text = Ok (normalize pre) /\
    visible pre <> [] /\
    (visible pre = visible (List.concat lines)
     \/ (kept_lines lines = [] /\ visible pre = visible text)).
Proof.
  intros Hne Hl. rewrite (format_for_tts_unfold unicode_lower text lines Hne Hl).
  pose proof (visible_kept_lines lines) as Hv.
  destruct (kept_lines_head lines) as [E|(x & l & E & Hx)]; rewrite E in *.
  - exists (strip text). split; [reflexivity|]. split.
    + rewrite visible_strip. now apply not_blank_visible.
    + right. split; [reflexivity | apply visible_strip].
  - exists (join [10; 10] (x :: l)). split; [reflexivity|].
    rewrite (visible_join [10; 10] (x :: l) eq_refl). split.
    + simpl. rewrite visible_app. intros F.
      apply app_eq_nil in F as [F _]. now apply (not_blank_visible x Hx).
    + now left.
Qed.

(** X6. [format_for_tts] returns the empty string for a blank text and for
    no other: a text with a visible character always gives the speech
    provider something to say. *)
Theorem output_is_empty_for_blank_text_only (text : str) :
  exists out,
    format_for_tts unicode_lower text = Ok out /\
    (out = [] <-> strip text = []).
Proof.
  destruct (strip text) as [|c r] eqn:E.
  - exists []. split; [|tauto]. unfold format_for_tts. now rewrite E.
  - assert (Hne : is_empty (strip text) = false) by now rewrite E.
    destruct (shape_lines_returns unicode_lower
                (detect_tone unicode_lower (Some (strip text)))
                (_soften_existing_name (_split_sentences (strip text))
                   (detect_tone unicode_lower (Some (strip text)))))
      as [lines Hl].
    destruct (format_for_tts_before_normalize text lines Hne Hl)
      as (pre & Hout & Hv & _).
    exists (normalize pre). split; [exact Hout|].
    split; [|discriminate]. intros F.
    exfalso. now apply (normalize_not_empty pre Hv).
Qed.

End Keeping.

(** ** The branches of [format_for_tts] *)

Lemma caution_loop_spec sentences :
  forall lines,
    caution_loop sentences lines
    = lines ++ flat_map (fun s => [s; []]) sentences.
Proof.
  induction sentences as [|s later IH]; intros lines; simpl.
  - now rewrite app_nil_r.
  - rewrite IH. now rewrite <- !app_assoc.
Qed.

Lemma visible_caution sentences :
  visible (List.concat (flat_map (fun s : str => [s; []]) sentences))
  = visible (List.concat sentences).
Proof.
  induction sentences as [|s later IH]; [reflexivity|].
  simpl. now rewrite !visible_app, IH.
Qed.

Lemma visible_buffered_lines limit sentences :
  visible (List.concat (buffered_lines limit sentences))
  = visible (List.concat sentences).
Proof.
  rewrite <- !(visible_join (u " ")) by reflexivity.
  now rewrite buffered_lines_regroup.
Qed.

Lemma closing_lift_appends tone last :
  exists e, closing_lift tone last = last ++ e
            /\ (e = [] \/ e = u "..." \/ e = u "!").
Proof.
  unfold closing_lift.
  destruct (tone_in tone [TONE_ENCOURAGING; TONE_REASSURING; TONE_PLAYFUL]).
  - destruct (negb _); [exists (u "...") | exists []];
      rewrite ?app_nil_r; tauto.
  - destruct (tone_in tone [TONE_HAPPY; TONE_EXCITED]).
    + destruct (negb _); [exists (u "!") | exists []];
        rewrite ?app_nil_r; tauto.
    + exists []. rewrite app_nil_r. tauto.
Qed.

Lemma _split_sentences_not_blank text :
  strip text <> [] ->
  Forall (fun s => is_empty (strip s) = false) (_split_sentences text).
Proof.
  intros Hne. rewrite _split_sentences_spec. unfold segmentation.
  pose proof (segments_trimmed text []) as H.
  destruct (segments [] text) as [|s l].
  - constructor; [|constructor]. rewrite strip_idempotent.
    now destruct (strip text).
  - eapply Forall_impl; [|exact H]. intros a [Ha Hn].
    rewrite Ha. now destruct a.
Qed.

Lemma drop_leading_blank_fixed x lines :
  is_empty (strip x) = false -> drop_leading_blank (x :: lines) = x :: lines.
Proof. intros H. simpl. now rewrite H. Qed.

Lemma kept_lines_drops_last_empty lines last :
  drop_leading_blank (lines ++ [last; []]) = lines ++ [last; []] ->
  is_empty (strip last) = false ->
  kept_lines (lines ++ [last; []]) = lines ++ [last].
Proof.
  intros Hd Hlast. unfold kept_lines. rewrite Hd.
  unfold drop_trailing_blank. rewrite rev_app_distr.
  cbn [rev app drop_leading_blank].
  change (is_empty (strip [])) with true. cbn iota.
  rewrite Hlast. cbn [rev]. now rewrite rev_involutive.
Qed.

(** The lines of the caution branch, once the last empty line is dropped,
    joined by the paragraph break: the sentences, four newlines apart. *)
Lemma caution_lines_joined sentences :
  sentences <> [] ->
  Forall (fun s => is_empty (strip s) = false) sentences ->
  exists x l,
    kept_lines (flat_map (fun s : str => [s; []]) sentences) = x :: l /\
    join [10; 10] (x :: l) = join [10; 10; 10; 10] sentences.
Proof.
  intros Hne Hs.
  destruct (snoc_of_nonempty sentences Hne) as (front & last & ->).
  apply Forall_app in Hs as [Hfront Hlast].
  apply Forall_inv in Hlast.
  assert (Hk : kept_lines (flat_map (fun s : str => [s; []]) (front ++ [last]))
               = flat_map (fun s : str => [s; []]) front ++ [last]).
  { replace (flat_map (fun s : str => [s; []]) (front ++ [last]))
      with (flat_map (fun s : str => [s; []]) front ++ [last; []])
      by (rewrite flat_map_app; reflexivity).
    apply kept_lines_drops_last_empty; [|assumption].
    destruct front as [|s front].
    - apply drop_leading_blank_fixed. assumption.
    - apply Forall_inv in Hfront. apply drop_leading_blank_fixed. assumption. }
  rewrite Hk. clear Hk Hne.
  assert (Hj : join [10; 10] (flat_map (fun s : str => [s; []]) front ++ [last])
               = join [10; 10; 10; 10] (front ++ [last])).
  { clear Hfront. induction front as [|s front IH]; [reflexivity|].
    cbn [flat_map app].
    rewrite (join_cons [10; 10] s) by discriminate.
    rewrite (join_cons [10; 10] []) by now destruct front.
    rewrite (join_cons [10; 10; 10; 10] s) by now destruct front.
    now rewrite IH. }
  destruct (flat_map (fun s : str => [s; []]) front ++ [last]) as [|x l] eqn:E.
  - now destruct front.
  - now exists x, l.
Qed.

Section Branches.

Variable unicode_lower : str -> N -> str -> str.

Lemma plain_tone_lines tone sentences :
  tone_in tone plain_tones = true ->
  _soften_existing_name sentences tone = sentences /\
  exists lines,
    shape_lines unicode_lower tone sentences = Ok lines /\
    visible (List.concat lines) = visible (List.concat sentences).
Proof.
  intros H. apply tone_in_In in H. unfold plain_tones in H. simpl in H.
  destruct H as [H|[H|[H|[]]]]; subst tone; (split; [reflexivity|]).
  - exists (buffered_lines 100 sentences).
    split; [reflexivity | apply visible_buffered_lines].
  - exists (buffered_lines 100 sentences).
    split; [reflexivity | apply visible_buffered_lines].
  - exists (flat_map (fun s => [s; []]) sentences). split.
    + unfold shape_lines. cbn. now rewrite caution_loop_spec.
    + apply visible_caution.
Qed.

(** X7. For the tones neutral, intrigued and caution, shaping neither drops
    nor adds nor reorders a visible character: the string that the last
    normalisation step receives shows exactly the visible characters of
    the text, in their order (only the whitespace between them
    changes). *)
Theorem plain_tones_keep_the_text (text tone : str) :
  detect_tone unicode_lower (Some (strip text)) = tone ->
  tone_in tone plain_tones = true ->
  exists pre,
    format_for_tts unicode_lower text = Ok (normalize pre) /\
    visible pre = visible text.
Proof.
  intros Htone Hplain.
  destruct (is_empty (strip text)) eqn:Hne.
  - exists (strip text). split; [|apply visible_strip].
    unfold format_for_tts. rewrite Hne. now destruct (strip text).
  - destruct (plain_tone_lines tone (_split_sentences (strip text)) Hplain)
      as (Hs & lines & Hl & Hv).
    destruct (format_for_tts_before_normalize unicode_lower text lines Hne)
      as (pre & Hout & _ & Hpre).
    { now rewrite Htone, Hs. }
    exists pre. split; [exact Hout|].
    destruct Hpre as [->|[_ ->]]; [|reflexivity].
    now rewrite Hv, visible_split_sentences, visible_strip.
Qed.

(** X8. For the upbeat tones, shaping keeps the visible characters of the
    text in their order and adds at most the closing lift after the last
    of them: three dots or an exclamation mark. *)
Theorem upbeat_tones_only_append (text tone : str) :
  detect_tone unicode_lower (Some (strip text)) = tone ->
  tone_in tone upbeat_tones = true ->
  exists pre e,
    format_for_tts unicode_lower text = Ok (normalize pre) /\
    visible pre = visible text ++ e /\
    (e = [] \/ e = u "..." \/ e = u "!").
Proof.
  intros Htone Hup.
  assert (Hne : is_empty (strip text) = false).
  { destruct (strip text); [|reflexivity].
    rewrite <- Htone in Hup. discriminate. }
  destruct (soften_upbeat (_split_sentences (strip text)) tone Hup) as [Hs Hnp].
  destruct (snoc_of_nonempty _ (buffered_lines_nonempty 80 _
              (_split_sentences_nonempty (strip text)))) as [front [last Hb]].
  assert (Hshape := shape_lines_upbeat unicode_lower tone _ Hnp Hup front last Hb).
  destruct (closing_lift_appends tone last) as (e & He & Hcases).
  destruct (format_for_tts_before_normalize unicode_lower text
              (front ++ [closing_lift tone last]) Hne)
    as (pre & Hout & _ & Hpre).
  { now rewrite Htone, Hs. }
  destruct Hpre as [Hv|[_ Hv]].
  - exists pre, e. split; [exact Hout|]. split; [|exact Hcases].
    rewrite Hv, He, visible_concat_app. simpl List.concat.
    rewrite app_nil_r, visible_app.
    assert (Ht : visible (List.concat front) ++ visible last = visible text).
    { rewrite <- (visible_strip text),
        <- (visible_split_sentences (strip text)),
        <- (visible_buffered_lines 80 (_split_sentences (strip text))),
        Hb, visible_concat_app.
      simpl List.concat. now rewrite app_nil_r. }
    rewrite app_assoc, Ht. f_equal.
    destruct Hcases as [->|[->| ->]]; reflexivity.
  - exists pre, []. rewrite app_nil_r. split; [exact Hout|]. split; tauto.
Qed.

(** X9. For the tone caution the output is the normalised form of the
    sentences set four newlines apart: each sentence is a line of its own,
    an empty line follows it, and the empty line after the last sentence
    is dropped. *)
Theorem caution_sets_sentences_apart (text : str) :
  detect_tone unicode_lower (Some (strip text)) = TONE_CAUTION ->
  format_for_tts unicode_lower text
  = Ok (normalize (join [10; 10; 10; 10] (_split_sentences (strip text)))).
Proof.
  intros Htone.
  assert (Hne : is_empty (strip text) = false).
  { destruct (strip text); [discriminate Htone | reflexivity]. }
  assert (Hne' : strip (strip text) <> []).
  { rewrite strip_idempotent. intros E. now rewrite E in Hne. }
  destruct (caution_lines_joined (_split_sentences (strip text))
              (_split_sentences_nonempty _)
              (_split_sentences_not_blank _ Hne')) as (x & l & Hk & Hj).
  rewrite (format_for_tts_unfold unicode_lower text
             (flat_map (fun s : str => [s; []]) (_split_sentences (strip text)))
             Hne).
  - now rewrite Hk, Hj.
  - rewrite Htone. unfold shape_lines, _soften_existing_name. cbn.
    now rewrite caution_loop_spec.
Qed.

(** X10. For the tones neutral and intrigued, sentences that fit 100
    characters when joined by single spaces are spoken as one paragraph:
    the output is the normalised form of the sentences joined by single
    spaces, with no paragraph break. *)
Theorem short_neutral_reply_is_one_paragraph (text tone : str) :
  is_empty (strip text) = false ->
  detect_tone unicode_lower (Some (strip text)) = tone ->
  tone_in tone [TONE_NEUTRAL; TONE_INTRIGUED] = true ->
  (List.length (join (u " ") (_split_sentences (strip text))) <= 100)%nat ->
  format_for_tts unicode_lower text
  = Ok (normalize (join (u " ") (_split_sentences (strip text)))).
Proof.
  intros Hne Htone Hin Hlen.
  assert (Hne' : strip (strip text) <> []).
  { rewrite strip_idempotent. intros E. now rewrite E in Hne. }
  pose proof (_split_sentences_not_blank _ Hne') as Hs.
  pose proof (_split_sentences_nonempty (strip text)) as Hn.
  rewrite (format_for_tts_unfold unicode_lower text
             [join (u " ") (_split_sentences (strip text))] Hne).
  - assert (Hj : is_empty (strip (join (u " ") (_split_sentences (strip text))))
                 = false).
    { apply visible_not_blank. rewrite visible_join by reflexivity.
      destruct (_split_sentences (strip text)) as [|s l]; [contradiction|].
      apply Forall_inv in Hs. simpl. rewrite visible_app. intros F.
      apply app_eq_nil in F as [F _]. now apply (not_blank_visible s Hs). }
    unfold kept_lines, drop_trailing_blank. simpl. rewrite Hj. simpl.
    now rewrite Hj.
  - rewrite Htone. apply tone_in_In in Hin. simpl in Hin.
    destruct Hin as [H|[H|[]]]; rewrite <- H;
      (transitivity (Ok (buffered_lines 100 (_split_sentences (strip text))));
       [reflexivity|]);
      now rewrite (buffered_lines_short 100 _ Hn Hlen).
Qed.

(** X11. Whitespace around the text has no part in the result: a text and
    the same text with whitespace before and after it are shaped into the
    same output. *)
Theorem surrounding_whitespace_is_ignored (before text after : str) :
  forallb isspace before = true -> forallb isspace after = true ->
  format_for_tts unicode_lower (before ++ text ++ after)
  = format_for_tts unicode_lower text.
Proof.
  intros Hb Ha. unfold format_for_tts. now rewrite (strip_pad before text after Hb Ha).
Qed.

End Branches.

(** ** The last line of the upbeat branch and the pauses of the
    sympathetic one *)

(** *** No line ends with two periods *)

Lemma ends_with_snoc p c s d :
  ends_with (p ++ [c]) (s ++ [d]) -> c = d /\ ends_with p s.
Proof.
  intros [a Ha]. rewrite app_assoc in Ha.
  apply app_inj_tail in Ha as [-> ->]. split; [reflexivity | now exists a].
Qed.

(** A sentence has at most its own delimiter at its end. *)
Lemma terminated_stop s :
  terminated s \/ no_delim s = true -> ~ ends_with (u "..") s.
Proof.
  intros H [a Ha]. change (u "..") with ([46] ++ [46]) in Ha.
  rewrite app_assoc in Ha.
  destruct H as [(body & d & -> & Hd & Hb) | H].
  - apply app_inj_tail in Ha as [-> _].
    rewrite no_delim_app in Hb. simpl in Hb.
    rewrite andb_false_r in Hb. discriminate.
  - subst s. rewrite !no_delim_app in H. simpl in H.
    rewrite andb_false_r in H. discriminate.
Qed.

Lemma _split_sentences_stops text :
  Forall (fun s => ~ ends_with (u "..") s) (_split_sentences text).
Proof.
  destruct (_split_sentences_well_cut text) as (front & last & -> & Hf & Hl).
  apply Forall_app. split.
  - eapply Forall_impl; [|exact Hf]. intros s Hs. apply terminated_stop. now left.
  - constructor; [now apply terminated_stop | constructor].
Qed.

Lemma _split_sentences_one_stop text :
  strip text <> [] -> Forall one_stop (_split_sentences text).
Proof.
  intros Hne. apply Forall_forall. intros s Hin. split.
  - pose proof (_split_sentences_not_blank text Hne) as H.
    rewrite Forall_forall in H. specialize (H s Hin).
    intros ->. discriminate.
  - pose proof (_split_sentences_stops text) as H.
    rewrite Forall_forall in H. now apply H.
Qed.

Lemma one_stop_after_space x t :
  one_stop t -> one_stop (x ++ u " " ++ t).
Proof.
  intros [Hne Hs]. split.
  - intros E. apply app_eq_nil in E as [_ E]. discriminate.
  - destruct (exists_last Hne) as [t' [c ->]].
    change (u "..") with ([46] ++ [46]). rewrite !app_assoc.
    intros H. apply ends_with_snoc in H as [<- H].
    destruct t' as [|b t'] using rev_ind.
    + rewrite app_nil_r in H. change [46] with ([] ++ [46]) in H.
      apply ends_with_snoc in H as [H _]. discriminate.
    + clear IHt'. rewrite app_assoc in H. change [46] with ([] ++ [46]) in H.
      apply ends_with_snoc in H as [<- _].
      apply Hs. exists t'. now rewrite <- app_assoc.
Qed.

Lemma join_one_stop group :
  group <> [] -> Forall one_stop group -> one_stop (join (u " ") group).
Proof.
  induction group as [|x group IH]; intros Hne H; [contradiction|].
  inversion H as [|? ? Hx Hg]; subst.
  destruct group as [|y group]; [exact Hx|].
  rewrite join_cons by discriminate.
  apply one_stop_after_space. apply IH; [discriminate | assumption].
Qed.

Lemma buffer_loop_one_stop limit sentences :
  forall buffer lines,
    Forall one_stop sentences -> Forall one_stop buffer ->
    Forall one_stop lines ->
    Forall one_stop (fst (buffer_loop limit sentences buffer lines)) /\
    Forall one_stop (snd (buffer_loop limit sentences buffer lines)).
Proof.
  induction sentences as [|s later IH]; intros buffer lines Hs Hb Hl.
  - now split.
  - inversion Hs as [|? ? Hs0 Hlater]; subst. simpl.
    assert (Hb' : Forall one_stop (buffer ++ [s])).
    { apply Forall_app. split; [assumption | now constructor]. }
    destruct (_ <? _)%nat; apply IH; try assumption; try constructor.
    apply Forall_app. split; [assumption|]. constructor; [|constructor].
    apply join_one_stop; [now destruct buffer | assumption].
Qed.

Lemma buffered_lines_one_stop limit sentences :
  Forall one_stop sentences -> Forall one_stop (buffered_lines limit sentences).
Proof.
  intros H. rewrite buffered_lines_unfold.
  destruct (buffer_loop_one_stop limit sentences [] [] H) as [Hl Hb];
    try constructor.
  apply Forall_app. split; [assumption|].
  destruct (snd (buffer_loop limit sentences [] [])) as [|b bs] eqn:E;
    [constructor|].
  constructor; [|constructor]. apply join_one_stop; [discriminate | assumption].
Qed.

(** *** Three dots after a line

    [replace] treats a run of periods from where the run starts: what
    stands before the run plays no part. *)
Lemma replace_dots_app (a b : str) :
  ~ ends_with (u ".") a ->
  replace_dots (a ++ b) = replace_dots a ++ replace_dots b.
Proof.
  induction a as [|r IH|c r E IH] using replace_dots_ind; intros H.
  - reflexivity.
  - simpl app. rewrite !replace_dots_hit. rewrite IH; [reflexivity|].
    intros [x ->]. apply H. now exists (46 :: 46 :: 46 :: x).
  - assert (E' : startswith three_dots (c :: r ++ b) = false).
    { destruct (startswith three_dots (c :: r ++ b)) eqn:F; [|reflexivity].
      exfalso. unfold three_dots in F, E. cbn [startswith] in F.
      apply andb_true_iff in F as [Fc F]. apply N.eqb_eq in Fc. subst c.
      destruct r as [|y [|z r]].
      - apply H. now exists [].
      - cbn [app startswith] in F. apply andb_true_iff in F as [Fy _].
        apply N.eqb_eq in Fy. subst y. apply H. now exists [46].
      - cbn [app startswith] in F. apply andb_true_iff in F as [Fy F].
        apply andb_true_iff in F as [Fz _].
        apply N.eqb_eq in Fy, Fz. subst y z. discriminate E. }
    simpl app. rewrite (replace_dots_miss c (r ++ b) E').
    rewrite (replace_dots_miss c r E). rewrite IH; [reflexivity|].
    intros [x ->]. apply H. now exists (c :: x).
Qed.

Lemma normalize_after_dots (y : str) :
  ~ ends_with (u ".") y ->
  ends_with (u "…") (normalize (y ++ u "...")) /\
  ends_with (u "….") (normalize (y ++ u "....")).
Proof.
  intros H. split; (apply normalize_keeps_ending; [reflexivity|]);
    rewrite (replace_dots_app _ _ H); now exists (replace_dots y).
Qed.

Lemma join_snoc_sep sep front last :
  exists x, join sep (front ++ [last]) = x ++ last
            /\ (x = [] \/ ends_with sep x).
Proof.
  induction front as [|y front [x [IH Hx]]].
  - exists []. split; [reflexivity | now left].
  - exists (y ++ sep ++ x). split.
    + simpl app.
      destruct (front ++ [last]) as [|z l] eqn:E; [now destruct front|].
      change (join sep (y :: z :: l)) with (y ++ sep ++ join sep (z :: l)).
      rewrite IH. now rewrite <- !app_assoc.
    + right. destruct Hx as [->|[a ->]].
      * exists y. now rewrite app_nil_r.
      * exists (y ++ sep ++ a). now rewrite <- !app_assoc.
Qed.

Lemma no_period_after_break x l :
  x = [] \/ ends_with [10; 10] x -> ~ ends_with (u ".") l ->
  ~ ends_with (u ".") (x ++ l).
Proof.
  intros Hx Hl [a Ha]. destruct l as [|c l _] using rev_ind.
  - rewrite app_nil_r in Ha. destruct Hx as [->|[b ->]].
    + now destruct a.
    + change [10; 10] with ([10] ++ [10]) in Ha. rewrite app_assoc in Ha.
      apply app_inj_tail in Ha as [_ Ha]. discriminate.
  - rewrite app_assoc in Ha. apply app_inj_tail in Ha as [_ ->].
    apply Hl. now exists l.
Qed.

(** The rule of the closing lift, by the tone. *)
Lemma closing_lift_rule tone last :
  (tone_in tone [TONE_ENCOURAGING; TONE_REASSURING; TONE_PLAYFUL] = true ->
   closing_lift tone last
   = if endswith (u "!") last || (endswith (u "…") last
                                  || endswith (u "...") last)
     then last else last ++ u "...") /\
  (tone_in tone [TONE_HAPPY; TONE_EXCITED] = true ->
   closing_lift tone last
   = if endswith (u "!") last then last else last ++ u "!").
Proof.
  split; intros H.
  - unfold closing_lift. rewrite H. cbn [existsb]. rewrite orb_false_r.
    now destruct (_ || _).
  - apply tone_in_In in H. simpl in H.
    destruct H as [H|[H|[]]]; subst tone; unfold closing_lift;
      match goal with
      | |- context [tone_in ?t ?l] =>
        let b := eval vm_compute in (tone_in t l) in
        change (tone_in t l) with b; cbv iota
      end;
      match goal with
      | |- context [tone_in ?t ?l] =>
        let b := eval vm_compute in (tone_in t l) in
        change (tone_in t l) with b; cbv iota
      end;
      now destruct (endswith _ last).
Qed.

Ltac lift_conflict :=
  match goal with
  | H : ends_with ?p ?l, E : endswith ?p ?l = false |- _ =>
    apply endswith_spec in H; congruence
  | Hn : ~ ends_with ?p ?l, E : endswith ?p ?l = true |- _ =>
    exfalso; apply Hn; now apply endswith_spec
  end.

Ltac dot_conflict Hdotcase :=
  match goal with
  | Hd : ends_with (u ".") _ |- _ => destruct (Hdotcase Hd); congruence
  end.

Section Closing.

Variable unicode_lower : str -> N -> str -> str.

(** The output ends as its last kept line ends, and that line stands at
    the start of the output or after a paragraph break. *)
Lemma format_for_tts_last_break text front last :
  is_empty (strip text) = false ->
  shape_lines unicode_lower (detect_tone unicode_lower (Some (strip text)))
    (_soften_existing_name (_split_sentences (strip text))
       (detect_tone unicode_lower (Some (strip text)))) = Ok (front ++ [last]) ->
  is_empty (strip last) = false ->
  exists x, format_for_tts unicode_lower text = Ok (normalize (x ++ last))
            /\ (x = [] \/ ends_with [10; 10] x).
Proof.
  intros Hne Hl Hlast.
  rewrite (format_for_tts_unfold unicode_lower text _ Hne Hl). unfold kept_lines.
  destruct (drop_leading_blank_keeps_last last Hlast front) as [front' ->].
  rewrite (drop_trailing_blank_keeps_last last Hlast front').
  destruct (join_snoc_sep [10; 10] front' last) as [x [Hx Hb]].
  exists x. rewrite <- Hx. split; [now destruct front' | assumption].
Qed.


(** *** The pauses *)

Lemma with_pause_not_blank s :
  is_empty (strip s) = false ->
  is_empty (strip (with_pause unicode_lower s)) = false.
Proof.
  intros H. unfold with_pause. destruct (_ && _); [|assumption].
  apply visible_not_blank. rewrite visible_app.
  apply not_blank_visible in H. now destruct (visible s).
Qed.

Lemma soften_first_not_blank s :
  is_empty (strip s) = false -> is_empty (strip (soften_first s)) = false.
Proof.
  intros H. unfold soften_first.
  destruct (re_match_name s) as [[[name sep] rest]|]; [|assumption].
  apply visible_not_blank.
  destruct (negb (is_empty (lstrip rest)));
    rewrite visible_app; [rewrite visible_app|];
    now destruct (visible name).
Qed.

Lemma ends_with_dots_stop s : ends_with three_dots s -> ends_with (u "..") s.
Proof. intros [a ->]. exists (a ++ [46]). now rewrite <- app_assoc. Qed.


End Closing.

(** *** On concrete inputs *)



Example upbeat_outputs :
  format_for_tts no_unicode_case (u "Keep going. You got this.")
  = Ok (u "Keep going. You got this….") /\
  format_for_tts no_unicode_case (u "Keep going") = Ok (u "Keep going…") /\
  format_for_tts no_unicode_case (u "Keep going!") = Ok (u "Keep going!") /\
  format_for_tts no_unicode_case (u "Congratulations, that's fantastic")
  = Ok (u "Congratulations, that's fantastic!").
Proof. repeat split. Qed.


Example one_sympathetic_sentence :
  format_for_tts no_unicode_case (u "I'm sorry") = Ok (u "I'm sorry…").
Proof. reflexivity. Qed.

(** * Properties of the callers *)

(** X12. [load_api_key] returns a key only from a file that exists and
    holds more than whitespace; the key is the text of the file without
    the whitespace around it (a final newline does not reach the client),
    it is never empty; a missing file and a blank file raise. *)
Theorem load_api_key_returns_a_trimmed_key (env_path : str) (file : option str) :
  (forall key, load_api_key env_path file = Key key ->
     key <> [] /\ strip key = key /\
     exists text, file = Some text /\ key = strip text) /\
  ((exists message, load_api_key env_path file = RuntimeError message)
   <-> file = None \/ exists text, file = Some text /\ forallb isspace text = true).
Proof.
  unfold load_api_key. destruct file as [text|].
  - destruct (strip text) as [|c r] eqn:E; cbn [is_empty].
    + split; [discriminate|]. split.
      * intros _. right. exists text. split; [reflexivity|].
        now apply strip_nil_blank.
      * intros _. eexists; reflexivity.
    + split.
      * intros key H. injection H as <-. split; [discriminate|].
        split; [rewrite <- E; apply strip_idempotent|].
        exists text. now split.
      * split; [intros [message H]; discriminate|].
        intros [H|(text' & H & Hb)]; [discriminate|].
        injection H as <-. rewrite (strip_blank text Hb) in E. discriminate.
  - split; [discriminate|]. split; [now left | intros _; eexists; reflexivity].
Qed.

(** X13. The text that [transcribe_file] returns is trimmed, and it is not
    empty only when bytes were read, the provider answered with a
    transcript that has a text, and that text is not blank: no bytes, a
    failed read, an exception of the provider or a transcript without
    text all give the empty string. *)
Theorem transcription_is_trimmed
        (create : list N -> Transcribe.transcription) (data : option (list N)) :
  strip (Transcribe.transcribe_file create data)
  = Transcribe.transcribe_file create data /\
  (Transcribe.transcribe_file create data <> [] ->
   exists bytes text,
     data = Some bytes /\ bytes <> [] /\
     create bytes = Transcribe.Transcript (Some text) /\
     Transcribe.transcribe_file create data = strip text).
Proof.
  unfold Transcribe.transcribe_file.
  destruct data as [[|b bytes]|]; try (split; [reflexivity | contradiction]).
  destruct (create (b :: bytes)) as [[text|]|] eqn:E;
    try (split; [reflexivity | contradiction]).
  split.
  - apply strip_idempotent.
  - intros H. exists (b :: bytes), text.
    split; [reflexivity|]. split; [discriminate|]. split; [exact E|].
    now destruct text.
Qed.

(** X14. [synthesize_speech] hands the speech provider the text shaped by
    [format_for_tts], and it returns no URL only when the provider (or the
    writing of the file) fails: the shaping step never makes it fail.  The
    URL is [/audio/], the hexadecimal name and [.mp3]. *)
Theorem speech_fails_only_with_the_provider
        unicode_lower (hex : str) (speech_create : str -> bool) (text : str) :
  exists shaped,
    format_for_tts unicode_lower text = Ok shaped /\
    Voice.synthesize_speech unicode_lower hex speech_create text
    = if speech_create shaped then Some (u "/audio/" ++ hex ++ u ".mp3")
      else None.
Proof.
  destruct (format_for_tts_returns unicode_lower text) as [shaped H].
  exists shaped. split; [exact H|].
  unfold Voice.synthesize_speech. now rewrite H.
Qed.

Lemma chat_history_appended (items : list Main.HistoryItem) :
  forall messages,
    fold_left (fun messages item =>
                 messages ++ [(Main.role item, Main.content item)])
              items messages
    = messages ++ map (fun item => (Main.role item, Main.content item)) items.
Proof.
  induction items as [|item items IH]; intros messages; simpl.
  - now rewrite app_nil_r.
  - now rewrite IH, <- app_assoc.
Qed.

Section ChatFacts.

Variable unicode_lower : str -> N -> str -> str.
Variable create : list (str * str) -> Main.completion.
Variable hex : str.
Variable speech_create : str -> bool.

(** X15. The tone in the response of [chat] is always one of the ten
    labels.  When the provider answers, the reply is its content trimmed,
    and the tone sent with it is the tone by which [format_for_tts] shapes
    the speech of that reply; when the provider raises, the response has
    no audio and the tone neutral. *)
Theorem chat_tone_is_a_label (req : Main.ChatRequest) :
  (exists label,
      Main.tone (Main.chat unicode_lower create hex speech_create req)
      = Some label /\ In label TONES) /\
  (forall content,
      create (Main.chat_messages unicode_lower req) = Main.Completed content ->
      Main.reply (Main.chat unicode_lower create hex speech_create req)
      = strip content /\
      Main.tone (Main.chat unicode_lower create hex speech_create req)
      = Some (detect_tone unicode_lower
                (Some (strip (Main.reply
                   (Main.chat unicode_lower create hex speech_create req))))) /\
      Main.audio_url (Main.chat unicode_lower create hex speech_create req)
      = Voice.synthesize_speech unicode_lower hex speech_create (strip content)) /\
  ((forall content,
       create (Main.chat_messages unicode_lower req) <> Main.Completed content) ->
   Main.audio_url (Main.chat unicode_lower create hex speech_create req) = None /\
   Main.tone (Main.chat unicode_lower create hex speech_create req)
   = Some TONE_NEUTRAL).
Proof.
  unfold Main.chat.
  destruct (create (Main.chat_messages unicode_lower req)) as [content| |e] eqn:E.
  - split; [|split].
    + eexists. split; [reflexivity | apply detect_tone_cases].
    + intros c H. injection H as <-. cbn [Main.reply Main.tone Main.audio_url].
      now rewrite strip_idempotent.
    + intros H. now destruct (H content).
  - split; [|split].
    + exists TONE_NEUTRAL. split; [reflexivity | simpl; tauto].
    + discriminate.
    + intros _. now split.
  - split; [|split].
    + exists TONE_NEUTRAL. split; [reflexivity | simpl; tauto].
    + discriminate.
    + intros _. now split.
Qed.

(** X16. The messages that [chat] sends to the provider are the system
    prompt, then every item of the history in its order, then the
    message of the user; the system prompt is one of the three prompts. *)
Theorem chat_replays_the_history (req : Main.ChatRequest) :
  exists prompt,
    In prompt [Main.therapist_prompt; Main.balanced_prompt; Main.friendly_prompt] /\
    Main.chat_messages unicode_lower req
    = (u "system", prompt)
        :: map (fun item => (Main.role item, Main.content item))
               (match Main.history req with
                | Some items => items
                | None => []
                end)
        ++ [(u "user", Main.message req)].
Proof.
  unfold Main.chat_messages. cbv zeta.
  match goal with
  | |- context [if str_eqb ?m (u "therapist") then _ else _] =>
    destruct (str_eqb m (u "therapist"));
      [exists Main.therapist_prompt
      | destruct (str_eqb m (u "balanced"));
        [exists Main.balanced_prompt | exists Main.friendly_prompt]]
  end;
    (split; [simpl; tauto|]);
    (destruct (Main.history req) as [[|item items]|];
     [reflexivity | rewrite chat_history_appended; reflexivity | reflexivity]).
Qed.

(** X17. The mode of a request selects the prompt whatever its case (for
    ASCII letters): a mode that reads therapist or balanced in lowercase
    selects that prompt, and a missing mode, an empty one and any other
    one select the friendly prompt. *)
Theorem chat_mode_selects_the_prompt (req : Main.ChatRequest) :
  (forall m, Main.mode req = Some m -> is_ascii m = true ->
             map ascii_lower m = u "therapist" ->
             hd_error (Main.chat_messages unicode_lower req)
             = Some (u "system", Main.therapist_prompt)) /\
  (forall m, Main.mode req = Some m -> is_ascii m = true ->
             map ascii_lower m = u "balanced" ->
             hd_error (Main.chat_messages unicode_lower req)
             = Some (u "system", Main.balanced_prompt)) /\
  (Main.mode req = None \/ Main.mode req = Some [] \/
   (exists m, Main.mode req = Some m /\ is_ascii m = true /\
              map ascii_lower m <> u "therapist" /\
              map ascii_lower m <> u "balanced") ->
   hd_error (Main.chat_messages unicode_lower req)
   = Some (u "system", Main.friendly_prompt)).
Proof.
  assert (Hhd : forall prompt items tail,
             hd_error
               ((match items with
                 | Some ((_ :: _) as l) =>
                   fold_left (fun messages item =>
                                messages ++ [(Main.role item, Main.content item)])
                             l [(u "system", prompt)]
                 | _ => [(u "system", prompt)]
                 end) ++ tail) = Some (u "system", prompt)).
  { intros prompt [[|item items]|] tail; try reflexivity.
    now rewrite chat_history_appended. }
  assert (Hmode : forall m, m <> [] -> is_ascii m = true ->
             lower unicode_lower (if is_empty m then u "friendly" else m)
             = map ascii_lower m).
  { intros m Hm Ha. destruct m; [contradiction|].
    cbn [is_empty]. now apply lower_from_ascii. }
  split; [|split].
  - intros m Hm Ha He. unfold Main.chat_messages. cbv zeta.
    rewrite Hm, Hmode, He by (try assumption; intros ->; discriminate).
    apply Hhd.
  - intros m Hm Ha He. unfold Main.chat_messages. cbv zeta.
    rewrite Hm, Hmode, He by (try assumption; intros ->; discriminate).
    apply Hhd.
  - intros [Hm|[Hm|(m & Hm & Ha & Ht & Hb)]];
      unfold Main.chat_messages; cbv zeta; rewrite Hm.
    + apply Hhd.
    + apply Hhd.
    + destruct m as [|c m]; [apply Hhd|].
      rewrite Hmode by (try assumption; discriminate).
      destruct (str_eqb (map ascii_lower (c :: m)) (u "therapist")) eqn:E1;
        [apply str_eqb_eq in E1; contradiction|].
      destruct (str_eqb (map ascii_lower (c :: m)) (u "balanced")) eqn:E2;
        [apply str_eqb_eq in E2; contradiction|].
      apply Hhd.
Qed.

End ChatFacts.

(** * The further properties on concrete inputs *)

Lemma first_matching_group_example :
  detect_tone no_unicode_case (Some (u "That's great, but be careful!"))
  = TONE_HAPPY.
Proof.
  apply (first_matching_group_decides no_unicode_case
           (u "That's great, but be careful!")
           [ (TONE_SYMPATHETIC, sad_keywords); (TONE_BUMMED, bummed_keywords);
             (TONE_REASSURING, reassuring_keywords);
             (TONE_ENCOURAGING, encouraging_keywords) ]
           [ (TONE_PLAYFUL, playful_keywords);
             (TONE_INTRIGUED, intrigued_keywords);
             (TONE_CAUTION, caution_keywords);
             (TONE_EXCITED, excited_keywords) ]
           TONE_HAPPY happy_keywords).
  - reflexivity.
  - intros group Hin. simpl in Hin.
    repeat (destruct Hin as [Hin|Hin]; [subst group; reflexivity|]).
    contradiction.
  - reflexivity.
Defined.

Lemma ascii_case_example :
  detect_tone no_unicode_case (Some (u "I AM SORRY to hear that"))
  = detect_tone no_unicode_case (Some (u "i am sorry TO HEAR THAT")).
Proof.
  apply (detect_tone_ignores_ascii_case no_unicode_case no_unicode_case);
    reflexivity.
Defined.

Lemma plain_tones_example :
  exists pre,
    format_for_tts no_unicode_case (u " Be careful.  It is hot . ")
    = Ok (normalize pre) /\
    visible pre = visible (u " Be careful.  It is hot . ").
Proof.
  exact (plain_tones_keep_the_text no_unicode_case
           (u " Be careful.  It is hot . ") TONE_CAUTION eq_refl eq_refl).
Defined.

Lemma upbeat_tones_example :
  exists pre e,
    format_for_tts no_unicode_case (u "You got this. Keep going")
    = Ok (normalize pre) /\
    visible pre = visible (u "You got this. Keep going") ++ e /\
    (e = [] \/ e = u "..." \/ e = u "!").
Proof.
  exact (upbeat_tones_only_append no_unicode_case
           (u "You got this. Keep going") TONE_ENCOURAGING eq_refl eq_refl).
Defined.

Lemma caution_example :
  format_for_tts no_unicode_case (u "Be careful. It is hot.")
  = Ok (u "Be careful." ++ [10; 10; 10; 10] ++ u "It is hot.").
Proof.
  exact (caution_sets_sentences_apart no_unicode_case
           (u "Be careful. It is hot.") eq_refl).
Defined.

Lemma short_neutral_reply_example :
  format_for_tts no_unicode_case (u "Good morning.   The sun is up!")
  = Ok (u "Good morning. The sun is up!").
Proof.
  apply (short_neutral_reply_is_one_paragraph no_unicode_case
           (u "Good morning.   The sun is up!") TONE_NEUTRAL);
    try reflexivity.
  apply Nat.leb_le. reflexivity.
Defined.

Lemma surrounding_whitespace_example :
  format_for_tts no_unicode_case ([9; 32] ++ u "Keep going" ++ [32; 10])
  = format_for_tts no_unicode_case (u "Keep going").
Proof.
  apply (surrounding_whitespace_is_ignored no_unicode_case); reflexivity.
Defined.

Example load_api_key_drops_the_newline :
  load_api_key (u "zelda_key.env") (Some (u "sk-abc" ++ [10])) = Key (u "sk-abc").
Proof. reflexivity. Qed.

Example chat_example :
  Main.chat no_unicode_case
    (fun _ => Main.Completed (u "  Congrats, that is a big step!  "))
    (u "0f") (fun _ => true)
    {| Main.message := u "I passed"; Main.mode := Some (u "Balanced");
       Main.history := None |}
  = {| Main.reply := u "Congrats, that is a big step!";
       Main.audio_url := Some (u "/audio/0f.mp3");
       Main.tone := Some TONE_HAPPY |}.
Proof. reflexivity. Qed.
